(** * Kinematics edges of teb_local_planner

    A shallow embedding of
    [include/teb_local_planner/g2o_types/edge_kinematics.h]: the two g2o
    binary edges [EdgeKinematicsDiffDrive] and [EdgeKinematicsCarlike], their
    cost functions, the analytic Jacobian of the differential-drive edge and
    the stream persistence of both.

    The C++ code computes on [double].  It is transcribed once, over an
    interface [Scalar] of the operations it applies to a [double], and read
    at two instances: the real numbers (exact arithmetic, in which the
    geometric statements and the derivatives are phrased) and IEEE-754
    binary64 (the arithmetic the compiled code runs, in which infinities and
    NaN exist).

    Contents: the scalar interface and its two instances; faults and
    pointers; the data model (Eigen vectors, poses, configuration, edge
    state) and the helpers the header calls; streams; the two classes; then
    the properties: the cost functions and the Jacobian in exact
    arithmetic, an edge that was never bound, stream persistence, and
    finiteness of the error vector in binary64; after these, the
    invariances and bounds of the two costs, the structure of the Jacobian,
    what the member functions read and assign in every arithmetic, the
    destructors, and the signs of the error components in binary64; and
    last the single residual components read in both arithmetics, with the
    inputs at which rounding or overflow separates the two. *)

From Stdlib Require Import Reals Lra Lia ZArith Bool List String Ascii.
From Stdlib Require Import SpecFloat.
Import ListNotations.

Set Implicit Arguments.

(** ** The operations on [double] *)

Class Scalar (T : Type) : Type := {
  s_zero : T;
  s_one : T;
  s_add : T -> T -> T;
  s_sub : T -> T -> T;
  s_mul : T -> T -> T;
  s_div : T -> T -> T;
  s_opp : T -> T;
  s_fabs : T -> T;
  s_sqrt : T -> T;
  s_cos : T -> T;
  s_sin : T -> T;
  s_eqb : T -> T -> bool;
  s_ltb : T -> T -> bool;
  s_leb : T -> T -> bool;
  s_isfinite : T -> bool
}.

Declare Scope scalar_scope.
Delimit Scope scalar_scope with S.
Notation "x + y" := (s_add x y) : scalar_scope.
Notation "x - y" := (s_sub x y) : scalar_scope.
Notation "x * y" := (s_mul x y) : scalar_scope.
Notation "x / y" := (s_div x y) : scalar_scope.
Notation "- x" := (s_opp x) : scalar_scope.
Notation "x == y" := (s_eqb x y) (at level 70, no associativity) : scalar_scope.
Notation "x < y" := (s_ltb x y) : scalar_scope.
Notation "x > y" := (s_ltb y x) : scalar_scope.
Notation "x <= y" := (s_leb x y) : scalar_scope.
Notation "x >= y" := (s_leb y x) : scalar_scope.

(** *** Exact arithmetic *)

Definition Reqb (x y : R) : bool := if Req_dec_T x y then true else false.
Definition Rltb (x y : R) : bool := if Rlt_dec x y then true else false.
Definition Rleb (x y : R) : bool := if Rle_dec x y then true else false.

#[export] Instance Scalar_R : Scalar R := {|
  s_zero := 0%R;
  s_one := 1%R;
  s_add := Rplus;
  s_sub := Rminus;
  s_mul := Rmult;
  s_div := Rdiv;
  s_opp := Ropp;
  s_fabs := Rabs;
  s_sqrt := sqrt;
  s_cos := cos;
  s_sin := sin;
  s_eqb := Reqb;
  s_ltb := Rltb;
  s_leb := Rleb;
  s_isfinite := fun _ => true
|}.

(** *** IEEE-754 binary64

    [+], [-], [*], [/], [sqrt], [fabs] and the comparisons are those of the
    standard; [cos] and [sin] come from the C library and are left open. *)

Definition binary64 : Type := spec_float.

Definition b64_isfinite (x : binary64) : bool :=
  match x with
  | S754_zero _ | S754_finite _ _ _ => true
  | S754_infinity _ | S754_nan => false
  end.

Definition b64_one : binary64 := SFone 53 1024.
Definition DBL_MAX : binary64 := SFmax_float 53 1024.

Definition Scalar_binary64 (libm_cos libm_sin : binary64 -> binary64)
  : Scalar binary64 := {|
  s_zero := S754_zero false;
  s_one := b64_one;
  s_add := SFadd 53 1024;
  s_sub := SFsub 53 1024;
  s_mul := SFmul 53 1024;
  s_div := SFdiv 53 1024;
  s_opp := SFopp;
  s_fabs := SFabs;
  s_sqrt := SFsqrt 53 1024;
  s_cos := libm_cos;
  s_sin := libm_sin;
  s_eqb := SFeqb;
  s_ltb := SFltb;
  s_leb := SFleb;
  s_isfinite := b64_isfinite
|}.

(** ** Faults *)

Inductive fault : Type :=
  | AssertionFailed (msg : string)   (* ROS_ASSERT_MSG broke *)
  | InvalidPointer                   (* a null or wild pointer dereferenced *)
  | DivisionByZero.                  (* [/] applied to a zero divisor *)

Inductive res (A : Type) : Type :=
  | Ok (a : A)
  | Fault (f : fault).
Arguments Ok {A} a.
Arguments Fault {A} f.

Definition bind {A B : Type} (c : res A) (k : A -> res B) : res B :=
  match c with
  | Ok a => k a
  | Fault f => Fault f
  end.

Notation "x <- c ;; k" := (bind c (fun x => k))
  (at level 61, c at next level, right associativity).
Notation "c ;;; k" := (bind c (fun _ => k))
  (at level 61, right associativity).

Definition ROS_ASSERT_MSG (cond : bool) (msg : string) : res unit :=
  if cond then Ok tt else Fault (AssertionFailed msg).

(** A pointer member: null, the address of an object, or a non-null value
    that is the address of no object (what storage that no constructor
    initialised may hold). *)
Inductive pointer (A : Type) : Type :=
  | NULL
  | Ref (a : A)
  | Wild.
Arguments NULL {A}.
Arguments Ref {A} a.
Arguments Wild {A}.

(** The truth value of a pointer in a condition: non-null. *)
Definition nonnull {A : Type} (p : pointer A) : bool :=
  match p with
  | NULL => false
  | Ref _ | Wild => true
  end.

Definition deref {A : Type} (p : pointer A) : res A :=
  match p with
  | Ref a => Ok a
  | NULL | Wild => Fault InvalidPointer
  end.

(** ** Data model *)

Section DataModel.
Context {T : Type} {ST : Scalar T}.
Local Open Scope scalar_scope.

(** [Eigen::Vector2d]: two coefficients, [v[0]] and [v[1]]. *)
Record Vector2d : Type := Vec2 { coeff0 : T; coeff1 : T }.

(** [a - b], [a.dot(b)] and [a.norm()] of Eigen, coefficient by
    coefficient. *)
Definition vsub (a b : Vector2d) : Vector2d :=
  Vec2 (coeff0 a - coeff0 b) (coeff1 a - coeff1 b).
Definition dot (a b : Vector2d) : T :=
  coeff0 a * coeff0 b + coeff1 a * coeff1 b.
Definition norm (a : Vector2d) : T :=
  s_sqrt (coeff0 a * coeff0 a + coeff1 a * coeff1 a).

(** [Eigen::Matrix2d] (the information matrix) and the 2x3 Jacobian
    blocks; [mIJ] is coefficient (I,J). *)
Record Matrix2d : Type := Mat2 { i00 : T; i01 : T; i10 : T; i11 : T }.
Record Matrix2x3 : Type :=
  Mat23 { m00 : T; m01 : T; m02 : T; m10 : T; m11 : T; m12 : T }.

(** Modelled from the spec: [VertexPose] of [g2o_types/vertex_pose.h], the
    pose of section 3, a 2D position and a heading in radians. *)
Record VertexPose : Type := Pose { position : Vector2d; theta : T }.

(** Modelled from the spec: [TebConfig] of [teb_config.h], of which the
    edges read [robot.min_turning_radius] only. *)
Record Robot : Type := { min_turning_radius : T }.
Record TebConfig : Type := { robot : Robot }.

(** The state of an edge object: the members of
    [g2o::BaseBinaryEdge<2, double, VertexPose, VertexPose>] that the two
    classes touch, and their own [cfg_]. *)
Record Edge : Type := {
  _vertices0 : pointer VertexPose;
  _vertices1 : pointer VertexPose;
  _measurement : T;
  _information : Matrix2d;
  _error : Vector2d;
  _jacobianOplusXi : Matrix2x3;
  _jacobianOplusXj : Matrix2x3;
  cfg_ : pointer TebConfig
}.

Definition set_vertices (e : Edge) (p0 p1 : pointer VertexPose) : Edge :=
  {| _vertices0 := p0; _vertices1 := p1;
     _measurement := _measurement e; _information := _information e;
     _error := _error e; _jacobianOplusXi := _jacobianOplusXi e;
     _jacobianOplusXj := _jacobianOplusXj e; cfg_ := cfg_ e |}.

Definition set_measurement (e : Edge) (m : T) : Edge :=
  {| _vertices0 := _vertices0 e; _vertices1 := _vertices1 e;
     _measurement := m; _information := _information e;
     _error := _error e; _jacobianOplusXi := _jacobianOplusXi e;
     _jacobianOplusXj := _jacobianOplusXj e; cfg_ := cfg_ e |}.

(** [information()(0,0) = w] *)
Definition set_information00 (e : Edge) (w : T) : Edge :=
  {| _vertices0 := _vertices0 e; _vertices1 := _vertices1 e;
     _measurement := _measurement e;
     _information := Mat2 w (i01 (_information e)) (i10 (_information e))
                          (i11 (_information e));
     _error := _error e; _jacobianOplusXi := _jacobianOplusXi e;
     _jacobianOplusXj := _jacobianOplusXj e; cfg_ := cfg_ e |}.

Definition set_error (e : Edge) (err : Vector2d) : Edge :=
  {| _vertices0 := _vertices0 e; _vertices1 := _vertices1 e;
     _measurement := _measurement e; _information := _information e;
     _error := err; _jacobianOplusXi := _jacobianOplusXi e;
     _jacobianOplusXj := _jacobianOplusXj e; cfg_ := cfg_ e |}.

Definition set_jacobians (e : Edge) (Ji Jj : Matrix2x3) : Edge :=
  {| _vertices0 := _vertices0 e; _vertices1 := _vertices1 e;
     _measurement := _measurement e; _information := _information e;
     _error := _error e; _jacobianOplusXi := Ji;
     _jacobianOplusXj := Jj; cfg_ := cfg_ e |}.

Definition set_cfg (e : Edge) (c : pointer TebConfig) : Edge :=
  {| _vertices0 := _vertices0 e; _vertices1 := _vertices1 e;
     _measurement := _measurement e; _information := _information e;
     _error := _error e; _jacobianOplusXi := _jacobianOplusXi e;
     _jacobianOplusXj := _jacobianOplusXj e; cfg_ := c |}.

(** ** Helpers from outside the header *)

(** Modelled from the spec: [penaltyBoundFromBelow] of
    [g2o_types/penalties.h] (section 4.1): 0 when [var >= a + epsilon],
    otherwise the amount by which [var] falls short of [a + epsilon]
    (the shape section 8 gives: [min_turning_radius - r] at epsilon 0). *)
Definition penaltyBoundFromBelow (var a epsilon : T) : T :=
  if var >= a + epsilon then s_zero else (a + epsilon) - var.

(** Modelled from the spec: [penaltyBoundFromBelowDerivative] of
    [g2o_types/penalties.h] (section 4.1): the slope of the above in
    [var], 0 on the satisfied side and -1 on the violated one. *)
Definition penaltyBoundFromBelowDerivative (var a epsilon : T) : T :=
  if var >= a + epsilon then s_zero else - s_one.

(** [g2o::sign]: 1, -1, or 0 at exactly 0 (section 4.2: a defined tie
    value at 0), converted to [double] where it is stored. *)
Definition sign (x : T) : T :=
  if x > s_zero then s_one else if x < s_zero then - s_one else s_zero.

(** [a / b], with a zero divisor made observable. *)
Definition checked_div (a b : T) : res T :=
  if b == s_zero then Fault DivisionByZero else Ok (a / b).

End DataModel.

Arguments Vector2d T : clear implicits.
Arguments Matrix2d T : clear implicits.
Arguments Matrix2x3 T : clear implicits.
Arguments VertexPose T : clear implicits.
Arguments Robot T : clear implicits.
Arguments TebConfig T : clear implicits.
Arguments Edge T : clear implicits.

(** ** Streams

    What [std::ostream] and [std::istream] carry is a sequence of characters
    in which a formatted [double] is kept whole: [os << d] appends [Num d] and
    [is >> d] gives back the value of a leading [Num], so that printing and
    re-reading one number is exact.  Literal text is kept character by
    character.

    The model is that of streams in which every number is set apart from
    its neighbours by white space or the end of input, and whose numbers
    print without loss: two numbers written without a separator, a number
    run together with letters, the digits that [operator<<] drops at its
    default precision and the [eofbit] are outside it. *)

Section Streams.
Context {T : Type} {ST : Scalar T}.

Inductive item : Type :=
  | Num (v : T)
  | Chr (c : ascii).

Definition text (s : string) : list item := map Chr (list_ascii_of_string s).

Record ostream : Type := { os_buf : list item; os_good : bool }.

(** [os << d] and [os << "..."]: nothing is written to a stream that is
    not good. *)
Definition put_double (os : ostream) (d : T) : ostream :=
  if os_good os then {| os_buf := os_buf os ++ [Num d]; os_good := true |}
  else os.
Definition put_string (os : ostream) (s : string) : ostream :=
  if os_good os then {| os_buf := os_buf os ++ text s; os_good := true |}
  else os.

Record istream : Type := { is_buf : list item; is_failbit : bool }.

Definition isspace (c : ascii) : bool :=
  match c with
  | " "%char | "009"%char | "010"%char | "011"%char | "012"%char
  | "013"%char => true
  | _ => false
  end.

Fixpoint skipws (l : list item) : list item :=
  match l with
  | Chr c :: l' => if isspace c then skipws l' else l
  | _ => l
  end.

(** [is >> d] for a [double] lvalue holding [old]: the stream after, and
    the value of the lvalue after.  A stream that already failed is left
    alone; at the end of input the extraction fails and [d] keeps its
    value; an input field that is no number fails the extraction and
    stores 0 (C++11 [num_get]). *)
Definition get_double (ist : istream) (old : T) : istream * T :=
  if is_failbit ist then (ist, old)
  else match skipws (is_buf ist) with
       | Num v :: rest => ({| is_buf := rest; is_failbit := false |}, v)
       | [] => ({| is_buf := []; is_failbit := true |}, old)
       | rest => ({| is_buf := rest; is_failbit := true |}, s_zero)
       end.

(** The characters written to [os], as the input of a later read. *)
Definition reopen (os : ostream) : istream :=
  {| is_buf := os_buf os; is_failbit := false |}.

End Streams.

Arguments item T : clear implicits.
Arguments ostream T : clear implicits.
Arguments istream T : clear implicits.

(** ** class EdgeKinematicsDiffDrive *)

Module EdgeKinematicsDiffDrive.
Section WithScalar.
Context {T : Type} {ST : Scalar T}.
Local Open Scope scalar_scope.

(** The constructor, run on the storage [raw] of the new object: it assigns
    the measurement and the two vertex pointers and leaves every other
    member, [cfg_] among them, as the storage held it. *)
Definition EdgeKinematicsDiffDrive (raw : Edge T) : Edge T :=
  set_vertices (set_measurement raw s_zero) NULL NULL.

Definition setTebConfig (e : Edge T) (cfg : TebConfig T) : Edge T :=
  set_cfg e (Ref cfg).

Definition computeError (e : Edge T) : res (Edge T) :=
  ROS_ASSERT_MSG (nonnull (cfg_ e))
    "You must call setTebConfig on EdgeKinematicsDiffDrive()" ;;;
  conf1 <- deref (_vertices0 e) ;;
  conf2 <- deref (_vertices1 e) ;;
  let deltaS := vsub (position conf2) (position conf1) in
  (* non holonomic constraint *)
  let error0 :=
    s_fabs ((s_cos (theta conf1) + s_cos (theta conf2)) * coeff1 deltaS
            - (s_sin (theta conf1) + s_sin (theta conf2)) * coeff0 deltaS) in
  (* positive-drive-direction constraint *)
  let angle_vec := Vec2 (s_cos (theta conf1)) (s_sin (theta conf1)) in
  let error1 := penaltyBoundFromBelow (dot deltaS angle_vec) s_zero s_zero in
  ROS_ASSERT_MSG (s_isfinite error0 && s_isfinite error1)
    "EdgeKinematicsDiffDrive::computeError() _error[0]=%f _error[1]=%f\n" ;;;
  Ok (set_error e (Vec2 error0 error1)).

(** Compiled under [USE_ANALYTIC_JACOBI]. *)
Definition linearizeOplus (e : Edge T) : res (Edge T) :=
  ROS_ASSERT_MSG (nonnull (cfg_ e))
    "You must call setTebConfig on EdgeKinematicsDiffDrive()" ;;;
  conf1 <- deref (_vertices0 e) ;;
  conf2 <- deref (_vertices1 e) ;;
  let deltaS := vsub (position conf2) (position conf1) in
  let cos1 := s_cos (theta conf1) in
  let cos2 := s_cos (theta conf2) in
  let sin1 := s_sin (theta conf1) in
  let sin2 := s_sin (theta conf2) in
  let aux1 := sin1 + sin2 in
  let aux2 := cos1 + cos2 in
  let dd_error_1 := coeff0 deltaS * cos1 in
  let dd_error_2 := coeff1 deltaS * sin1 in
  let dd_dev :=
    penaltyBoundFromBelowDerivative (dd_error_1 + dd_error_2) s_zero s_zero in
  let dev_nh_abs :=
    sign ((s_cos (theta conf1) + s_cos (theta conf2)) * coeff1 deltaS
          - (s_sin (theta conf1) + s_sin (theta conf2)) * coeff0 deltaS) in
  (* conf1 *)
  let Xi :=
    {| m00 := aux1 * dev_nh_abs;                     (* nh x1 *)
       m01 := (- aux2) * dev_nh_abs;                 (* nh y1 *)
       m10 := (- cos1) * dd_dev;                     (* drive-dir x1 *)
       m11 := (- sin1) * dd_dev;                     (* drive-dir y1 *)
       m02 := (- dd_error_2 - dd_error_1) * dev_nh_abs;   (* nh angle *)
       m12 := ((- sin1) * coeff0 deltaS + cos1 * coeff1 deltaS) * dd_dev
                                                     (* drive-dir angle1 *)
    |} in
  (* conf2 *)
  let Xj :=
    {| m00 := (- aux1) * dev_nh_abs;                 (* nh x2 *)
       m01 := aux2 * dev_nh_abs;                     (* nh y2 *)
       m10 := cos1 * dd_dev;                         (* drive-dir x2 *)
       m11 := sin1 * dd_dev;                         (* drive-dir y2 *)
       m02 := ((- sin2) * coeff1 deltaS - cos2 * coeff0 deltaS) * dev_nh_abs;
                                                     (* nh angle *)
       m12 := s_zero                                 (* drive-dir angle1 *)
    |} in
  Ok (set_jacobians e Xi Xj).

Definition getError (e : Edge T) : res (Edge T * Vector2d T) :=
  e' <- computeError e ;;
  Ok (e', _error e').

Definition read (e : Edge T) (ist : istream T) : Edge T * istream T * bool :=
  let '(is1, m) := get_double ist (_measurement e) in
  let e1 := set_measurement e m in
  let '(is2, w) := get_double is1 (i00 (_information e1)) in
  let e2 := set_information00 e1 w in
  (e2, is2, true).

Definition write (e : Edge T) (os : ostream T) : ostream T * bool :=
  let os1 := put_double os (i00 (_information e)) in
  let os2 := put_string os1 " Error NH-Constraint: " in
  let os3 := put_double os2 (coeff0 (_error e)) in
  let os4 := put_string os3 ", Error PosDriveDir: " in
  let os5 := put_double os4 (coeff1 (_error e)) in
  (os5, os_good os5).

End WithScalar.
End EdgeKinematicsDiffDrive.

(** ** class EdgeKinematicsCarlike *)

Module EdgeKinematicsCarlike.
Section WithScalar.
Context {T : Type} {ST : Scalar T}.
Local Open Scope scalar_scope.

(** [g2o::normalize_theta], the angle normalisation of the host math
    library. *)
Variable normalize_theta : T -> T.

(** The constructor: as for the differential-drive edge. *)
Definition EdgeKinematicsCarlike (raw : Edge T) : Edge T :=
  set_vertices (set_measurement raw s_zero) NULL NULL.

Definition setTebConfig (e : Edge T) (cfg : TebConfig T) : Edge T :=
  set_cfg e (Ref cfg).

Definition computeError (e : Edge T) : res (Edge T) :=
  ROS_ASSERT_MSG (nonnull (cfg_ e))
    "You must call setTebConfig on EdgeKinematicsCarlike()" ;;;
  conf1 <- deref (_vertices0 e) ;;
  conf2 <- deref (_vertices1 e) ;;
  let deltaS := vsub (position conf2) (position conf1) in
  (* non holonomic constraint *)
  let error0 :=
    s_fabs ((s_cos (theta conf1) + s_cos (theta conf2)) * coeff1 deltaS
            - (s_sin (theta conf1) + s_sin (theta conf2)) * coeff0 deltaS) in
  (* limit minimum turning radius *)
  let omega_t := normalize_theta (theta conf2 - theta conf1) in
  error1 <- (if omega_t == s_zero
             then Ok s_zero   (* straight line motion *)
             else
               radius <- checked_div (norm deltaS) (s_fabs omega_t) ;;
               cfg <- deref (cfg_ e) ;;
               Ok (penaltyBoundFromBelow radius
                     (min_turning_radius (robot cfg)) s_zero)) ;;
  (* the two ROS_INFO_STREAM lines log omega_t and the error, nothing else *)
  ROS_ASSERT_MSG (s_isfinite error0 && s_isfinite error1)
    "EdgeKinematicsCarlike::computeError() _error[0]=%f _error[1]=%f\n" ;;;
  Ok (set_error e (Vec2 error0 error1)).

Definition getError (e : Edge T) : res (Edge T * Vector2d T) :=
  e' <- computeError e ;;
  Ok (e', _error e').

Definition read (e : Edge T) (ist : istream T) : Edge T * istream T * bool :=
  let '(is1, m) := get_double ist (_measurement e) in
  let e1 := set_measurement e m in
  let '(is2, w) := get_double is1 (i00 (_information e1)) in
  let e2 := set_information00 e1 w in
  (e2, is2, true).

Definition write (e : Edge T) (os : ostream T) : ostream T * bool :=
  let os1 := put_double os (i00 (_information e)) in
  let os2 := put_string os1 " Error NH-Constraint: " in
  let os3 := put_double os2 (coeff0 (_error e)) in
  let os4 := put_string os3 ", Error PosDriveDir: " in
  let os5 := put_double os4 (coeff1 (_error e)) in
  (os5, os_good os5).

End WithScalar.
End EdgeKinematicsCarlike.

(** ** An edge in use

    [TebOptimalPlanner::AddEdgesKinematics] constructs an edge, attaches it
    to two consecutive poses of the band and binds the configuration;
    [raw] is the storage the object is constructed on. *)

Section InUse.
Context {T : Type} {ST : Scalar T}.

Definition diffdrive_edge (raw : Edge T) (conf1 conf2 : VertexPose T)
    (cfg : TebConfig T) : Edge T :=
  EdgeKinematicsDiffDrive.setTebConfig
    (set_vertices (EdgeKinematicsDiffDrive.EdgeKinematicsDiffDrive raw)
       (Ref conf1) (Ref conf2)) cfg.

Definition carlike_edge (raw : Edge T) (conf1 conf2 : VertexPose T)
    (cfg : TebConfig T) : Edge T :=
  EdgeKinematicsCarlike.setTebConfig
    (set_vertices (EdgeKinematicsCarlike.EdgeKinematicsCarlike raw)
       (Ref conf1) (Ref conf2)) cfg.

(** The same edges when [setTebConfig] is never called. *)
Definition diffdrive_edge_unbound (raw : Edge T)
    (conf1 conf2 : VertexPose T) : Edge T :=
  set_vertices (EdgeKinematicsDiffDrive.EdgeKinematicsDiffDrive raw)
    (Ref conf1) (Ref conf2).

Definition carlike_edge_unbound (raw : Edge T)
    (conf1 conf2 : VertexPose T) : Edge T :=
  set_vertices (EdgeKinematicsCarlike.EdgeKinematicsCarlike raw)
    (Ref conf1) (Ref conf2).

Definition pose (x y th : T) : VertexPose T := Pose (Vec2 x y) th.

Definition config (mtr : T) : TebConfig T :=
  {| robot := {| min_turning_radius := mtr |} |}.

End InUse.

(** Storage filled with zero bytes. *)
Definition zeroed {T : Type} {ST : Scalar T} : Edge T :=
  {| _vertices0 := NULL; _vertices1 := NULL;
     _measurement := s_zero;
     _information := Mat2 s_zero s_zero s_zero s_zero;
     _error := Vec2 s_zero s_zero;
     _jacobianOplusXi := Mat23 s_zero s_zero s_zero s_zero s_zero s_zero;
     _jacobianOplusXj := Mat23 s_zero s_zero s_zero s_zero s_zero s_zero;
     cfg_ := NULL |}.

(** A fresh, good output stream. *)
Definition empty_ostream {T : Type} : ostream T :=
  {| os_buf := []; os_good := true |}.

(** ** Vocabulary of the statements in exact arithmetic *)

(** The signed non-holonomic term, whose absolute value is the first error
    component, and the projection of the displacement on the heading of the
    first pose, which the drive-direction penalty bounds from below. *)
Definition nh_term (x1 y1 th1 x2 y2 th2 : R) : R :=
  ((cos th1 + cos th2) * (y2 - y1) - (sin th1 + sin th2) * (x2 - x1))%R.

Definition drive_dir (x1 y1 th1 x2 y2 : R) : R :=
  ((x2 - x1) * cos th1 + (y2 - y1) * sin th1)%R.

(** The distance between the two positions, as [deltaS.norm()] computes it. *)
Definition chord (x1 y1 x2 y2 : R) : R :=
  sqrt ((x2 - x1) * (x2 - x1) + (y2 - y1) * (y2 - y1))%R.

(** The error vector that [getError] returns for an edge between two poses
    (the zero vector stands for a fault, which exact arithmetic never
    raises on a bound edge: see [diffdrive_error_exact]). *)
Definition diffdrive_error (raw : Edge R) (cfg : TebConfig R)
    (conf1 conf2 : VertexPose R) : Vector2d R :=
  match EdgeKinematicsDiffDrive.getError (diffdrive_edge raw conf1 conf2 cfg) with
  | Ok (_, err) => err
  | Fault _ => Vec2 0%R 0%R
  end.


(** An angle normalisation on real numbers, into [-PI, PI), on which the
    car-like edge is run at concrete poses; the statements about that edge
    hold for every normalisation function. *)
Definition wrap_angle (theta : R) : R :=
  if Rleb (- PI) theta && Rltb theta PI then theta
  else (theta - 2 * PI * IZR (Zfloor ((theta + PI) / (2 * PI))))%R.


(** ** Vocabulary of the statements in binary64 arithmetic *)

Definition b64_of_Z (z : Z) : binary64 := binary_normalize 53 1024 z 0 false.

Definition b64_zero : binary64 := S754_zero false.

(** Binary64 arithmetic with stand-ins for [cos] and [sin] that are right
    at a heading of 0, where the C library is exact: [cos 0 = 1] and
    [sin 0 = 0]. *)
Definition libm_at_zero : Scalar binary64 :=
  Scalar_binary64 (fun _ => b64_one) (fun _ => b64_zero).

(** Two poses at opposite corners of the representable plane. *)
Definition far_corner_lo : VertexPose binary64 :=
  Pose (Vec2 (SFopp DBL_MAX) (SFopp DBL_MAX)) b64_zero.
Definition far_corner_hi : VertexPose binary64 :=
  Pose (Vec2 DBL_MAX DBL_MAX) b64_zero.

(** The messages of the two finiteness assertions. *)
Definition diffdrive_finite_msg : string :=
  "EdgeKinematicsDiffDrive::computeError() _error[0]=%f _error[1]=%f\n".
Definition carlike_finite_msg : string :=
  "EdgeKinematicsCarlike::computeError() _error[0]=%f _error[1]=%f\n".
Definition diffdrive_cfg_msg : string :=
  "You must call setTebConfig on EdgeKinematicsDiffDrive()".
Definition carlike_cfg_msg : string :=
  "You must call setTebConfig on EdgeKinematicsCarlike()".

(** *** Numbers in range *)

(** [v] is a binary64 number (zero or finite, in canonical form) of
    magnitude below [2 ^ k]. *)
Definition within (k : Z) (v : binary64) : bool :=
  valid_binary 53 1024 v
  && match v with
     | S754_zero _ => true
     | S754_finite _ m e => (Zpos (digits2_pos m) + e <=? k)%Z
     | S754_infinity _ | S754_nan => false
     end.

(** The sign bit of a number or an infinity. *)
Definition sign_bit (v : binary64) : bool :=
  match v with
  | S754_zero s | S754_infinity s | S754_finite s _ _ => s
  | S754_nan => false
  end.

(** What [deltaS.norm() / fabs(omega_t)] can be: a number that is not
    negative, or +infinity. *)
Definition radius_like (r : binary64) : Prop :=
  r = S754_infinity false
  \/ (within 1024%Z r = true /\ sign_bit r = false).

(** The two coordinates and the heading of a pose are numbers below
    [2 ^ k]. *)
Definition pose_within (k : Z) (p : VertexPose binary64) : bool :=
  within k (coeff0 (position p)) && within k (coeff1 (position p))
  && within k (theta p).

(** [cos] or [sin] of a C library: on a finite argument, a number of
    magnitude below 2. *)
Definition unit_range (f : binary64 -> binary64) : Prop :=
  forall x : binary64, b64_isfinite x = true -> within 1%Z (f x) = true.

(** An angle normalisation: on a finite argument, a number. *)
Definition gives_numbers (f : binary64 -> binary64) : Prop :=
  forall x : binary64, b64_isfinite x = true -> within 1024%Z (f x) = true.

(** Case analysis on the two operands of a finiteness assertion. *)
Ltac split_on_finiteness :=
  unfold ROS_ASSERT_MSG;
  match goal with
  | |- context [if ?a && ?b then _ else _] =>
      destruct a eqn:Ha; destruct b eqn:Hb
  end;
  cbn [andb bind _error set_error coeff0 coeff1];
  [ split; assumption | reflexivity .. ].

(** ** Destruction

    The graph side of an edge.  An edge object and a vertex object are known
    by their addresses; every vertex keeps the set of the edges attached to
    it ([edges()], a [std::set] of edge pointers), here the list of their
    addresses, in which only membership counts. *)

Definition EdgePtr : Type := nat.
Definition VertexPtr : Type := nat.

(** [edges()] of every vertex of the graph. *)
Definition EdgeSets : Type := VertexPtr -> list EdgePtr.

(** [v->edges().erase(this)]: [std::set::erase] by key, which does nothing
    when the key is absent. *)
Definition erase (g : EdgeSets) (v : VertexPtr) (this : EdgePtr) : EdgeSets :=
  fun u => if Nat.eqb u v then remove Nat.eq_dec this (g u) else g u.

(** The loop of both destructors over [_vertices[0]] and [_vertices[1]]:
    a vertex pointer that is not null is followed and [this] is erased from
    the edge set found there. *)
Fixpoint erase_from_vertices (this : EdgePtr)
    (vertices : list (pointer VertexPtr)) (g : EdgeSets) : res EdgeSets :=
  match vertices with
  | [] => Ok g
  | p :: rest =>
      g' <- (if nonnull p
             then v <- deref p ;; Ok (erase g v this)
             else Ok g) ;;
      erase_from_vertices this rest g'
  end.

(** [~EdgeKinematicsDiffDrive] and [~EdgeKinematicsCarlike], which have the
    same body, for the edge at address [this] whose two vertex pointers are
    [v0] and [v1]. *)
Definition destructor (this : EdgePtr) (v0 v1 : pointer VertexPtr)
    (g : EdgeSets) : res EdgeSets :=
  erase_from_vertices this [v0; v1] g.

(** ** Vocabulary of the statements about the members *)

(** The part of its result that a call hands back, when it returns. *)
Definition res_map {A B : Type} (f : A -> B) (c : res A) : res B :=
  a <- c ;; Ok (f a).

(** A run of white-space characters in a stream. *)
Definition blanks {T : Type} (ws : list ascii) : list (item T) := map Chr ws.

(** A rigid motion of the plane applied to a pose: a rotation by [phi]
    about the origin, then a translation by [(a, b)]. *)
Definition move (a b phi : R) (p : VertexPose R) : VertexPose R :=
  Pose (Vec2 (coeff0 (position p) * cos phi - coeff1 (position p) * sin phi + a)
             (coeff0 (position p) * sin phi + coeff1 (position p) * cos phi + b))%R
       (theta p + phi)%R.

(** Case analysis on the conditions a member function tests, one after the
    other. *)
Ltac cases_if :=
  match goal with
  | |- context [if ?b then _ else _] => destruct b eqn:?
  end.

Ltac step_edge :=
  repeat progress
    (cbn [bind fst snd res_map cfg_ _vertices0 _vertices1 _error set_error
          set_jacobians set_cfg nonnull deref];
     unfold checked_div;
     repeat match goal with
            | H : _ = _ |- _ => rewrite H
            end).

Ltac settle_edge :=
  step_edge; first [reflexivity | discriminate | cases_if; settle_edge].

(** The states of an edge by its configuration and vertex pointers. *)
Ltac open_edge e :=
  destruct e as [v0 v1 m inf err Ji Jj c];
  unfold ROS_ASSERT_MSG;
  cbn [cfg_ _vertices0 _vertices1 set_error set_jacobians];
  destruct c as [| cfg |]; cbn [nonnull bind]; try reflexivity;
  (destruct v0 as [| conf1 |]; cbn [deref bind]; try reflexivity);
  (destruct v1 as [| conf2 |]; cbn [deref bind]; try reflexivity).

(** Edges in binary64 at concrete poses, with the stand-ins for the C
    library that are exact at a heading of 0: a step of one unit backward
    and one unit sideways from the origin, and a step of one unit forward. *)
Definition b64_backward_edge : Edge binary64 :=
  diffdrive_edge (ST := libm_at_zero) (zeroed (ST := libm_at_zero))
    (Pose (Vec2 b64_zero b64_zero) b64_zero)
    (Pose (Vec2 (SFopp b64_one) b64_one) b64_zero)
    {| robot := {| min_turning_radius := b64_one |} |}.

Definition b64_forward_carlike_edge : Edge binary64 :=
  carlike_edge (ST := libm_at_zero) (zeroed (ST := libm_at_zero))
    (Pose (Vec2 b64_zero b64_zero) b64_zero)
    (Pose (Vec2 b64_one b64_zero) b64_zero)
    {| robot := {| min_turning_radius := b64_one |} |}.

(** ** Vocabulary of the statements that read the costs in both arithmetics *)

(** The three quantities that the cost functions form from two poses, as
    the code computes them in the arithmetic of [T]: the signed
    non-holonomic term, the projection of the displacement on the first
    heading, and the implied turning radius.  In binary64 each operation
    rounds. *)
Section Computed.
Context {T : Type} {ST : Scalar T}.
Local Open Scope scalar_scope.

Definition computed_nh_term (conf1 conf2 : VertexPose T) : T :=
  (s_cos (theta conf1) + s_cos (theta conf2))
  * coeff1 (vsub (position conf2) (position conf1))
  - (s_sin (theta conf1) + s_sin (theta conf2))
    * coeff0 (vsub (position conf2) (position conf1)).

Definition computed_projection (conf1 conf2 : VertexPose T) : T :=
  dot (vsub (position conf2) (position conf1))
      (Vec2 (s_cos (theta conf1)) (s_sin (theta conf1))).


End Computed.

(** The real number that a binary64 number stands for, [m * 2 ^ e] with its
    sign (0 for the values that are no numbers). *)
Definition b64_to_R (v : binary64) : R :=
  match v with
  | S754_finite s m e =>
      if (0 <=? e)%Z then IZR (cond_Zopp s (Zpos m) * 2 ^ e)
      else (IZR (cond_Zopp s (Zpos m)) / IZR (2 ^ (- e)))%R
  | _ => 0%R
  end.

Definition b64_two_pow_m60 : binary64 :=
  S754_finite false 4503599627370496 (-112).

(** Edges in binary64 at concrete poses, with the stand-ins for the C
    library that are exact at a heading of 0: between the two far corners;
    from the origin to [(3, 4 - 2^-51)] with a minimum turning radius of 5;
    from the origin one unit forward with a minimum turning radius of 2;
    and from [(1, 0)] back to [(x2, 0)]. *)
Definition b64_far_corner_edge : Edge binary64 :=
  diffdrive_edge (ST := libm_at_zero) (zeroed (ST := libm_at_zero))
    far_corner_lo far_corner_hi
    {| robot := {| min_turning_radius := b64_one |} |}.



Definition b64_step_back_edge (x2 : binary64) : Edge binary64 :=
  diffdrive_edge (ST := libm_at_zero) (zeroed (ST := libm_at_zero))
    (Pose (Vec2 b64_one b64_zero) b64_zero)
    (Pose (Vec2 x2 b64_zero) b64_zero)
    {| robot := {| min_turning_radius := b64_one |} |}.

(** What may follow a number in a stream for the number to end there: the
    end of input or a white-space character. *)
Definition delimited {T : Type} (rest : list (item T)) : bool :=
  match rest with
  | [] => true
  | Chr c :: _ => isspace c
  | Num _ :: _ => false
  end.

(** * Properties in exact arithmetic *)

Unset Implicit Arguments.

Section Exact.
Local Open Scope R_scope.

Lemma Rleb_true (x y : R) : x <= y -> Rleb x y = true.
Proof.
  intros Hle. unfold Rleb. destruct (Rle_dec x y); [reflexivity | contradiction].
Qed.

Lemma Rleb_false (x y : R) : y < x -> Rleb x y = false.
Proof.
  intros Hlt. unfold Rleb. destruct (Rle_dec x y); [lra | reflexivity].
Qed.

Lemma Rltb_true (x y : R) : x < y -> Rltb x y = true.
Proof.
  intros Hlt. unfold Rltb. destruct (Rlt_dec x y); [reflexivity | contradiction].
Qed.

Lemma Rltb_false (x y : R) : y <= x -> Rltb x y = false.
Proof.
  intros Hle. unfold Rltb. destruct (Rlt_dec x y); [lra | reflexivity].
Qed.

Lemma Reqb_true (x y : R) : x = y -> Reqb x y = true.
Proof.
  intros Heq. unfold Reqb. destruct (Req_dec_T x y); [reflexivity | contradiction].
Qed.

Lemma Reqb_false (x y : R) : x <> y -> Reqb x y = false.
Proof.
  intros Hne. unfold Reqb. destruct (Req_dec_T x y); [contradiction | reflexivity].
Qed.

(** The penalty on real numbers, by cases. *)
Lemma penalty_satisfied (v a eps : R) :
  a + eps <= v -> penaltyBoundFromBelow v a eps = 0.
Proof.
  intros Hle. unfold penaltyBoundFromBelow. cbn.
  rewrite Rleb_true by assumption. reflexivity.
Qed.

Lemma penalty_violated (v a eps : R) :
  v < a + eps -> penaltyBoundFromBelow v a eps = a + eps - v.
Proof.
  intros Hlt. unfold penaltyBoundFromBelow. cbn.
  rewrite Rleb_false by assumption. reflexivity.
Qed.

Lemma wrap_angle_in_range (theta : R) :
  - PI <= theta -> theta < PI -> wrap_angle theta = theta.
Proof.
  intros Hlo Hhi. unfold wrap_angle.
  rewrite Rleb_true, Rltb_true by assumption. reflexivity.
Qed.

(** ** The differential-drive cost *)

Lemma diffdrive_computeError_exact raw cfg x1 y1 th1 x2 y2 th2 :
  EdgeKinematicsDiffDrive.computeError
    (diffdrive_edge raw (pose x1 y1 th1) (pose x2 y2 th2) cfg)
  = Ok (set_error (diffdrive_edge raw (pose x1 y1 th1) (pose x2 y2 th2) cfg)
          (Vec2 (Rabs (nh_term x1 y1 th1 x2 y2 th2))
                (penaltyBoundFromBelow (drive_dir x1 y1 th1 x2 y2) 0 0))).
Proof. reflexivity. Qed.

Lemma diffdrive_error_exact raw cfg x1 y1 th1 x2 y2 th2 :
  diffdrive_error raw cfg (pose x1 y1 th1) (pose x2 y2 th2)
  = Vec2 (Rabs (nh_term x1 y1 th1 x2 y2 th2))
         (penaltyBoundFromBelow (drive_dir x1 y1 th1 x2 y2) 0 0).
Proof. reflexivity. Qed.

(** In exact arithmetic, for every pair of poses the first error component
    is |(cos th1 + cos th2) * (y2 - y1) - (sin th1 + sin th2) * (x2 - x1)|,
    and so it is never negative. *)
Lemma diffdrive_nonholonomic_residual_exact
    (raw : Edge R) (cfg : TebConfig R) (x1 y1 th1 x2 y2 th2 : R) :
  exists e' : Edge R,
    EdgeKinematicsDiffDrive.computeError
      (diffdrive_edge raw (pose x1 y1 th1) (pose x2 y2 th2) cfg) = Ok e'
    /\ coeff0 (_error e')
       = Rabs ((cos th1 + cos th2) * (y2 - y1) - (sin th1 + sin th2) * (x2 - x1))
    /\ 0 <= coeff0 (_error e').
Proof.
  eexists. split; [apply diffdrive_computeError_exact |].
  cbn [_error set_error coeff0]. split; [reflexivity | apply Rabs_pos].
Qed.

(** In exact arithmetic, the second error component of the
    differential-drive edge is
    [penaltyBoundFromBelow(deltaS . (cos th1, sin th1), 0, 0)]: it is 0
    when the displacement points forward of the first heading (projection
    >= 0), strictly positive when it points backward, and strictly larger
    for any pose pair whose projection is further backward. *)
Lemma diffdrive_drive_direction_residual_exact
    (raw : Edge R) (cfg : TebConfig R) (x1 y1 th1 x2 y2 th2 : R) :
  exists e' : Edge R,
    EdgeKinematicsDiffDrive.computeError
      (diffdrive_edge raw (pose x1 y1 th1) (pose x2 y2 th2) cfg) = Ok e'
    /\ coeff1 (_error e')
       = penaltyBoundFromBelow ((x2 - x1) * cos th1 + (y2 - y1) * sin th1) 0 0
    /\ (0 <= (x2 - x1) * cos th1 + (y2 - y1) * sin th1 ->
        coeff1 (_error e') = 0)
    /\ ((x2 - x1) * cos th1 + (y2 - y1) * sin th1 < 0 ->
        0 < coeff1 (_error e')
        /\ forall (raw' : Edge R) (cfg' : TebConfig R)
                  (u1 v1 ph1 u2 v2 ph2 : R),
             (u2 - u1) * cos ph1 + (v2 - v1) * sin ph1
             < (x2 - x1) * cos th1 + (y2 - y1) * sin th1 ->
             exists e'' : Edge R,
               EdgeKinematicsDiffDrive.computeError
                 (diffdrive_edge raw' (pose u1 v1 ph1) (pose u2 v2 ph2) cfg')
               = Ok e''
               /\ coeff1 (_error e') < coeff1 (_error e'')).
Proof.
  eexists. split; [apply diffdrive_computeError_exact |].
  cbn [_error set_error coeff1]. unfold drive_dir.
  split; [reflexivity |]. split.
  - intros Hfwd. apply penalty_satisfied. lra.
  - intros Hback. split.
    + rewrite penalty_violated by lra. lra.
    + intros raw' cfg' u1 v1 ph1 u2 v2 ph2 Hfurther.
      eexists. split; [apply diffdrive_computeError_exact |].
      cbn [_error set_error coeff1]. unfold drive_dir.
      rewrite !penalty_violated by lra. lra.
Qed.

(** Two identical poses: both components are exactly 0. *)
Example diffdrive_identical_poses (raw : Edge R) (cfg : TebConfig R)
    (x y th : R) :
  diffdrive_error raw cfg (pose x y th) (pose x y th) = Vec2 0 0.
Proof.
  rewrite diffdrive_error_exact. unfold nh_term, drive_dir.
  replace ((cos th + cos th) * (y - y) - (sin th + sin th) * (x - x))
    with 0 by ring.
  replace ((x - x) * cos th + (y - y) * sin th) with 0 by ring.
  rewrite Rabs_R0, penalty_satisfied by lra. reflexivity.
Qed.

(** A step of length [d] along the common heading: the non-holonomic
    component is exactly 0. *)
Example diffdrive_straight_step (raw : Edge R) (cfg : TebConfig R)
    (x y th d : R) :
  coeff0 (diffdrive_error raw cfg (pose x y th)
            (pose (x + d * cos th) (y + d * sin th) th)) = 0.
Proof.
  rewrite diffdrive_error_exact. cbn [coeff0]. unfold nh_term.
  replace ((cos th + cos th) * (y + d * sin th - y)
           - (sin th + sin th) * (x + d * cos th - x)) with 0 by ring.
  apply Rabs_R0.
Qed.

(** ** The car-like cost *)

Section Carlike.
Variable normalize_theta : R -> R.

Lemma carlike_computeError_straight raw cfg x1 y1 th1 x2 y2 th2 :
  normalize_theta (th2 - th1) = 0 ->
  EdgeKinematicsCarlike.computeError normalize_theta
    (carlike_edge raw (pose x1 y1 th1) (pose x2 y2 th2) cfg)
  = Ok (set_error (carlike_edge raw (pose x1 y1 th1) (pose x2 y2 th2) cfg)
          (Vec2 (Rabs (nh_term x1 y1 th1 x2 y2 th2)) 0)).
Proof.
  intros Hw. unfold EdgeKinematicsCarlike.computeError. cbn.
  rewrite Hw, Reqb_true by reflexivity. reflexivity.
Qed.

Lemma carlike_computeError_turning raw mtr x1 y1 th1 x2 y2 th2 :
  normalize_theta (th2 - th1) <> 0 ->
  EdgeKinematicsCarlike.computeError normalize_theta
    (carlike_edge raw (pose x1 y1 th1) (pose x2 y2 th2) (config mtr))
  = Ok (set_error
          (carlike_edge raw (pose x1 y1 th1) (pose x2 y2 th2) (config mtr))
          (Vec2 (Rabs (nh_term x1 y1 th1 x2 y2 th2))
             (penaltyBoundFromBelow
                (chord x1 y1 x2 y2 / Rabs (normalize_theta (th2 - th1)))
                mtr 0))).
Proof.
  intros Hw. unfold EdgeKinematicsCarlike.computeError. cbn.
  rewrite (Reqb_false _ _ Hw). unfold checked_div. cbn.
  rewrite Reqb_false by (apply Rabs_no_R0; exact Hw). reflexivity.
Qed.

(** No evaluation of the car-like cost divides by zero, whatever the state
    of the edge. *)
Lemma carlike_never_divides_by_zero (e : Edge R) :
  EdgeKinematicsCarlike.computeError normalize_theta e <> Fault DivisionByZero.
Proof.
  unfold EdgeKinematicsCarlike.computeError.
  destruct (cfg_ e) as [| c |]; cbn; try discriminate;
    (destruct (_vertices0 e) as [| conf1 |]; cbn; try discriminate);
    (destruct (_vertices1 e) as [| conf2 |]; cbn; try discriminate);
    (destruct (Req_dec_T (normalize_theta (theta conf2 - theta conf1)) 0)
       as [Hw | Hw];
     [ rewrite (Reqb_true _ _ Hw); cbn; discriminate
     | rewrite (Reqb_false _ _ Hw); unfold checked_div; cbn;
       rewrite Reqb_false by (apply Rabs_no_R0; exact Hw);
       cbn; discriminate ]).
Qed.

(** C2.  When the normalised heading difference is exactly 0 the second
    error component of the car-like edge is exactly 0, whatever the two
    positions; and no evaluation of the cost, in any state of the edge,
    divides by zero. *)
Theorem carlike_straight_line_residual
    (raw : Edge R) (cfg : TebConfig R) (x1 y1 th1 x2 y2 th2 : R) :
  normalize_theta (th2 - th1) = 0 ->
  (exists e' : Edge R,
     EdgeKinematicsCarlike.computeError normalize_theta
       (carlike_edge raw (pose x1 y1 th1) (pose x2 y2 th2) cfg) = Ok e'
     /\ coeff1 (_error e') = 0)
  /\ (forall e : Edge R,
        EdgeKinematicsCarlike.computeError normalize_theta e
        <> Fault DivisionByZero).
Proof.
  intros Hw. split.
  - eexists. split; [apply carlike_computeError_straight; exact Hw |].
    reflexivity.
  - apply carlike_never_divides_by_zero.
Qed.


(** C9.  When the two positions coincide and the normalised heading
    difference is not 0, the turning-radius component of the car-like edge
    is exactly [min_turning_radius] (a configuration has
    [min_turning_radius >= 0]), hence strictly positive when
    [min_turning_radius > 0]. *)
Theorem carlike_rotation_in_place_residual
    (raw : Edge R) (mtr x y th1 th2 : R) :
  normalize_theta (th2 - th1) <> 0 ->
  0 <= mtr ->
  exists e' : Edge R,
    EdgeKinematicsCarlike.computeError normalize_theta
      (carlike_edge raw (pose x y th1) (pose x y th2) (config mtr)) = Ok e'
    /\ coeff1 (_error e') = mtr
    /\ (0 < mtr -> 0 < coeff1 (_error e')).
Proof.
  intros Hw Hmtr. eexists.
  split; [apply carlike_computeError_turning; exact Hw |].
  cbn [_error set_error coeff1]. unfold chord.
  replace ((x - x) * (x - x) + (y - y) * (y - y)) with 0 by ring.
  rewrite sqrt_0. unfold Rdiv. rewrite Rmult_0_l.
  assert (Hval : penaltyBoundFromBelow 0 mtr 0 = mtr).
  { destruct (Rle_lt_or_eq_dec 0 mtr Hmtr) as [Hpos | Hzero].
    - rewrite penalty_violated by lra. lra.
    - rewrite penalty_satisfied by lra. lra. }
  rewrite Hval. split; [reflexivity | tauto].
Qed.

(** Outside the data model, with a negative [min_turning_radius], the same
    component is 0: the bound is already met by a radius of 0. *)
Remark carlike_rotation_in_place_negative_bound
    (raw : Edge R) (mtr x y th1 th2 : R) :
  normalize_theta (th2 - th1) <> 0 ->
  mtr < 0 ->
  exists e' : Edge R,
    EdgeKinematicsCarlike.computeError normalize_theta
      (carlike_edge raw (pose x y th1) (pose x y th2) (config mtr)) = Ok e'
    /\ coeff1 (_error e') = 0.
Proof.
  intros Hw Hmtr. eexists.
  split; [apply carlike_computeError_turning; exact Hw |].
  cbn [_error set_error coeff1]. unfold chord.
  replace ((x - x) * (x - x) + (y - y) * (y - y)) with 0 by ring.
  rewrite sqrt_0. unfold Rdiv. rewrite Rmult_0_l.
  apply penalty_satisfied. lra.
Qed.

End Carlike.

(** ** The analytic Jacobian of the differential-drive cost *)








(** ** The theorems at concrete poses *)

Lemma wrap_angle_zero : wrap_angle (0 - 0) = 0.
Proof.
  pose proof PI_RGT_0 as Hpi.
  rewrite wrap_angle_in_range by lra. lra.
Qed.

Lemma wrap_angle_one : wrap_angle (1 - 0) <> 0.
Proof.
  pose proof PI_RGT_0 as Hpi. pose proof PI2_1 as Hpi2.
  rewrite wrap_angle_in_range by lra. lra.
Qed.

(** Two poses heading along x, side by side: the headings agree. *)
Lemma carlike_straight_line_residual_witness :
  (exists e' : Edge R,
     EdgeKinematicsCarlike.computeError wrap_angle
       (carlike_edge zeroed (pose 0 0 0) (pose 1 0 0) (config 1)) = Ok e'
     /\ coeff1 (_error e') = 0)
  /\ (forall e : Edge R,
        EdgeKinematicsCarlike.computeError wrap_angle e
        <> Fault DivisionByZero).
Proof.
  apply (carlike_straight_line_residual wrap_angle zeroed (config 1) 0 0 0 1 0 0).
  exact wrap_angle_zero.
Defined.

(** A turn of one radian on the spot, with a minimum turning radius of 2. *)
Lemma carlike_rotation_in_place_residual_witness :
  exists e' : Edge R,
    EdgeKinematicsCarlike.computeError wrap_angle
      (carlike_edge zeroed (pose 0 0 0) (pose 0 0 1) (config 2)) = Ok e'
    /\ coeff1 (_error e') = 2
    /\ (0 < 2 -> 0 < coeff1 (_error e')).
Proof.
  apply (carlike_rotation_in_place_residual wrap_angle zeroed 2 0 0 0 1).
  - exact wrap_angle_one.
  - lra.
Defined.


(** ** An edge that was never bound to a configuration *)

(** When the storage of the edge holds a null [cfg_], the assertion at the
    head of each evaluation breaks. *)
Lemma unbound_null_cfg_faults (raw : Edge R) (conf1 conf2 : VertexPose R)
    (normalize_theta : R -> R) :
  EdgeKinematicsDiffDrive.computeError
    (diffdrive_edge_unbound (set_cfg raw NULL) conf1 conf2)
  = Fault (AssertionFailed diffdrive_cfg_msg)
  /\ EdgeKinematicsDiffDrive.linearizeOplus
       (diffdrive_edge_unbound (set_cfg raw NULL) conf1 conf2)
     = Fault (AssertionFailed diffdrive_cfg_msg)
  /\ EdgeKinematicsCarlike.computeError normalize_theta
       (carlike_edge_unbound (set_cfg raw NULL) conf1 conf2)
     = Fault (AssertionFailed carlike_cfg_msg).
Proof. repeat split. Qed.

(** C6, at the failing input.  Neither constructor initialises [cfg_]: on
    storage where that member holds a non-null value, an edge on which
    [setTebConfig] was never called passes the assertion.  The
    differential-drive edge then returns its error vector and its Jacobian
    as if it were bound, and the car-like edge returns its error vector
    when the headings agree. *)
Theorem unbound_wild_cfg_evaluates
    (raw : Edge R) (x1 y1 th1 x2 y2 th2 : R) :
  (exists e' : Edge R,
     EdgeKinematicsDiffDrive.computeError
       (diffdrive_edge_unbound (set_cfg raw Wild)
          (pose x1 y1 th1) (pose x2 y2 th2)) = Ok e'
     /\ _error e'
        = Vec2 (Rabs ((cos th1 + cos th2) * (y2 - y1)
                      - (sin th1 + sin th2) * (x2 - x1)))
               (penaltyBoundFromBelow
                  ((x2 - x1) * cos th1 + (y2 - y1) * sin th1) 0 0))
  /\ (exists e' : Edge R,
        EdgeKinematicsDiffDrive.linearizeOplus
          (diffdrive_edge_unbound (set_cfg raw Wild)
             (pose x1 y1 th1) (pose x2 y2 th2)) = Ok e')
  /\ (exists e' : Edge R,
        EdgeKinematicsCarlike.computeError wrap_angle
          (carlike_edge_unbound (set_cfg raw Wild)
             (pose x1 y1 th1) (pose x2 y2 th1)) = Ok e'
        /\ coeff1 (_error e') = 0).
Proof.
  split; [| split].
  - eexists. split; reflexivity.
  - eexists. reflexivity.
  - eexists. unfold EdgeKinematicsCarlike.computeError. cbn.
    replace (th1 - th1) with (0 - 0) by ring.
    rewrite wrap_angle_zero, Reqb_true by reflexivity. cbn.
    split; reflexivity.
Qed.

(** The same at two poses one unit apart along their common heading: the
    unbound edge yields the zero error vector. *)
Example unbound_diffdrive_returns_zero_vector :
  exists e' : Edge R,
    EdgeKinematicsDiffDrive.computeError
      (diffdrive_edge_unbound (set_cfg zeroed Wild) (pose 0 0 0) (pose 1 0 0))
    = Ok e'
    /\ _error e' = Vec2 0 0.
Proof.
  eexists. split; [reflexivity |].
  cbn [_error set_error]. cbn.
  rewrite cos_0, sin_0.
  replace ((1 + 1) * (0 - 0) - (0 + 0) * (1 - 0)) with 0 by ring.
  rewrite Rabs_R0, penalty_satisfied by lra. reflexivity.
Qed.

End Exact.

(** * Stream persistence *)

Section Persistence.
Context {T : Type} {ST : Scalar T}.

(** What [write] leaves in a fresh stream: the weight, then the trailer with
    the two error components. *)
Lemma write_buffer (e : Edge T) :
  EdgeKinematicsDiffDrive.write e empty_ostream
  = ({| os_buf := Num (i00 (_information e))
                  :: text " Error NH-Constraint: "
                  ++ Num (coeff0 (_error e))
                  :: text ", Error PosDriveDir: "
                  ++ [Num (coeff1 (_error e))];
        os_good := true |}, true)
  /\ EdgeKinematicsCarlike.write e empty_ostream
     = EdgeKinematicsDiffDrive.write e empty_ostream.
Proof. split; reflexivity. Qed.

(** C7, at the failing input.  [write] puts the weight first and never the
    measurement, while [read] extracts the measurement first: reading back
    what an edge [e] wrote stores the weight of [e] as the measurement,
    fails on the trailer when it extracts the weight, which becomes 0, and
    still returns true. *)
Theorem write_then_read_misplaces_fields (e e0 : Edge T) :
  (exists (e1 : Edge T) (ist1 : istream T),
     EdgeKinematicsDiffDrive.read e0
       (reopen (fst (EdgeKinematicsDiffDrive.write e empty_ostream)))
     = (e1, ist1, true)
     /\ _measurement e1 = i00 (_information e)
     /\ i00 (_information e1) = s_zero
     /\ is_failbit ist1 = true)
  /\ (exists (e1 : Edge T) (ist1 : istream T),
        EdgeKinematicsCarlike.read e0
          (reopen (fst (EdgeKinematicsCarlike.write e empty_ostream)))
        = (e1, ist1, true)
        /\ _measurement e1 = i00 (_information e)
        /\ i00 (_information e1) = s_zero
        /\ is_failbit ist1 = true).
Proof.
  split; do 2 eexists; (split; [reflexivity |]); repeat split.
Qed.

(** C10.  Whatever the input stream holds, [read] of either edge returns
    true: a failed extraction is not reported, and the values extracted are
    stored as they come. *)
Theorem read_returns_true (e : Edge T) (ist : istream T) :
  (exists (e1 : Edge T) (ist1 : istream T),
     EdgeKinematicsDiffDrive.read e ist = (e1, ist1, true)
     /\ _measurement e1 = snd (get_double ist (_measurement e))
     /\ i00 (_information e1)
        = snd (get_double (fst (get_double ist (_measurement e)))
                 (i00 (_information e))))
  /\ (exists (e1 : Edge T) (ist1 : istream T),
        EdgeKinematicsCarlike.read e ist = (e1, ist1, true)
        /\ _measurement e1 = snd (get_double ist (_measurement e))
        /\ i00 (_information e1)
           = snd (get_double (fst (get_double ist (_measurement e)))
                    (i00 (_information e)))).
Proof.
  unfold EdgeKinematicsDiffDrive.read, EdgeKinematicsCarlike.read.
  destruct (get_double ist (_measurement e)) as [is1 m] eqn:H1. cbn.
  destruct (get_double is1 (i00 (_information e))) as [is2 w] eqn:H2.
  split; do 2 eexists; (split; [reflexivity |]); split; reflexivity.
Qed.

(** On an empty stream both extractions fail, the edge keeps its fields, and
    [read] returns true all the same. *)
Example read_empty_stream (e : Edge T) :
  EdgeKinematicsDiffDrive.read e {| is_buf := []; is_failbit := false |}
  = (e, {| is_buf := []; is_failbit := true |}, true).
Proof. destruct e as [v0 v1 m [w a b c] err Ji Jj cfg]. reflexivity. Qed.

(** On a stream that holds text and no number, the first extraction fails
    and stores 0, and [read] returns true all the same. *)
Example read_garbage_stream (e : Edge T) :
  exists e1 : Edge T,
    EdgeKinematicsCarlike.read e
      {| is_buf := text "not a number"; is_failbit := false |}
    = (e1, {| is_buf := text "not a number"; is_failbit := true |}, true)
    /\ _measurement e1 = s_zero
    /\ i00 (_information e1) = i00 (_information e).
Proof. eexists. split; [reflexivity |]. split; reflexivity. Qed.

End Persistence.

(** * Properties in binary64 arithmetic *)

Lemma SFmul_inf_not_finite (c : binary64) (s : bool) :
  b64_isfinite (SFmul 53 1024 c (S754_infinity s)) = false.
Proof. destruct c; reflexivity. Qed.

Lemma SFsub_not_finite (a b : binary64) :
  b64_isfinite a = false -> b64_isfinite b = false ->
  b64_isfinite (SFsub 53 1024 a b) = false.
Proof.
  destruct a as [sa | sa | | sa ma ea]; try discriminate;
    destruct b as [sb | sb | | sb mb eb]; try discriminate; intros _ _;
    try reflexivity; destruct sa, sb; reflexivity.
Qed.

Lemma SFabs_isfinite (a : binary64) : b64_isfinite (SFabs a) = b64_isfinite a.
Proof. destruct a; reflexivity. Qed.

Lemma SFeqb_abs_zero (w : binary64) :
  SFeqb (SFabs w) (S754_zero false) = SFeqb w (S754_zero false).
Proof.
  destruct w as [s | s | | s m e]; try reflexivity; destruct s; reflexivity.
Qed.

(** The difference of the two far corners overflows in both coordinates. *)
Lemma far_corners_overflow :
  SFsub 53 1024 DBL_MAX (SFopp DBL_MAX) = S754_infinity false.
Proof. vm_compute. reflexivity. Qed.

(** ** Rounding to binary64

    What the arithmetic of the cost functions needs from the rounding of
    [SpecFloat]: sums, differences and products of numbers in range are
    numbers in range, square roots and quotients of numbers that are not
    negative are numbers or +infinity, never NaN. *)

Section Rounding.
Local Open Scope Z_scope.

Lemma digits2_pos_size (p : positive) : digits2_pos p = Pos.size p.
Proof. induction p as [p IH | p IH |]; cbn; now rewrite ?IH. Qed.

Lemma Zdigits2_log2 (m : Z) : 0 < m -> Zdigits2 m = Z.log2 m + 1.
Proof.
  destruct m as [| p | p]; try lia. intros _. cbn [Zdigits2].
  rewrite digits2_pos_size.
  destruct p as [p | p |]; cbn [Z.log2 Pos.size]; lia.
Qed.

Lemma Zdigits2_nonneg (m : Z) : 0 <= Zdigits2 m.
Proof. destruct m; cbn; lia. Qed.

Lemma Zdigits2_pos (m : Z) : 0 < m -> 1 <= Zdigits2 m.
Proof.
  intros Hm. rewrite Zdigits2_log2 by assumption.
  pose proof (Z.log2_nonneg m). lia.
Qed.

(** [m < 2 ^ d] bounds the number of digits of [m] by [d]. *)
Lemma Zdigits2_le (m d : Z) : 0 < m -> 0 <= d -> m < 2 ^ d -> Zdigits2 m <= d.
Proof.
  intros Hm Hd Hlt. rewrite Zdigits2_log2 by assumption.
  assert (Z.log2 m < d) by (apply Z.log2_lt_pow2; assumption). lia.
Qed.

Lemma Zdigits2_bound (m : Z) : 0 < m -> m < 2 ^ Zdigits2 m.
Proof.
  intros Hm. rewrite Zdigits2_log2 by assumption.
  replace (Z.log2 m + 1) with (Z.succ (Z.log2 m)) by lia.
  apply Z.log2_spec. assumption.
Qed.

Lemma Zdigits2_mono (a b : Z) : 0 < a -> a <= b -> Zdigits2 a <= Zdigits2 b.
Proof.
  intros Ha Hab. rewrite !Zdigits2_log2 by lia.
  pose proof (Z.log2_le_mono a b Hab). lia.
Qed.

(** Dropping [n] low bits drops [n] digits, while anything is left. *)
Lemma Zdigits2_div_pow2 (m n : Z) :
  0 < m -> 0 <= n -> 0 < m / 2 ^ n -> Zdigits2 (m / 2 ^ n) = Zdigits2 m - n.
Proof.
  intros Hm Hn Hq. rewrite !Zdigits2_log2 by assumption.
  rewrite <- Z.shiftr_div_pow2 in * by assumption.
  rewrite Z.log2_shiftr by assumption.
  assert (n <= Z.log2 m).
  { destruct (Z_le_gt_dec n (Z.log2 m)) as [Hle | Hgt]; [assumption |].
    exfalso. rewrite Z.shiftr_eq_0 in Hq by lia. lia. }
  lia.
Qed.

Lemma Zdigits2_div_pow2_zero (m n : Z) :
  0 < m -> 0 <= n -> m / 2 ^ n = 0 -> Zdigits2 m <= n.
Proof.
  intros Hm Hn Hq. apply Zdigits2_le; try assumption.
  apply Z.div_small_iff in Hq; [| apply Z.pow_nonzero; lia].
  pose proof (Z.pow_pos_nonneg 2 n). lia.
Qed.

Lemma shr_1_m (mrs : shr_record) :
  0 <= shr_m mrs -> shr_m (shr_1 mrs) = shr_m mrs / 2.
Proof.
  destruct mrs as [m r s]. cbn [shr_m]. intros Hm.
  rewrite <- Z.div2_div.
  destruct m as [| p | p]; [reflexivity | | lia].
  destruct p; reflexivity.
Qed.

Lemma shr_m_iter (p : positive) (mrs : shr_record) :
  0 <= shr_m mrs ->
  shr_m (iter_pos shr_1 p mrs) = shr_m mrs / 2 ^ Zpos p.
Proof.
  revert mrs. induction p as [p IH | p IH |]; intros mrs Hm; cbn [iter_pos].
  - assert (H1 : 0 <= shr_m (shr_1 mrs)).
    { rewrite shr_1_m by assumption. apply Z.div_pos; lia. }
    assert (H2 : 0 <= shr_m (iter_pos shr_1 p (shr_1 mrs))).
    { rewrite IH by assumption. apply Z.div_pos; [assumption | lia]. }
    rewrite IH, IH, shr_1_m by assumption.
    rewrite !Z.div_div by lia. f_equal.
    replace (Zpos p~1) with (1 + Zpos p + Zpos p) by lia.
    rewrite !Z.pow_add_r by lia. ring.
  - assert (H2 : 0 <= shr_m (iter_pos shr_1 p mrs)).
    { rewrite IH by assumption. apply Z.div_pos; [assumption | lia]. }
    rewrite IH, IH by assumption.
    rewrite !Z.div_div by lia. f_equal.
    replace (Zpos p~0) with (Zpos p + Zpos p) by lia.
    rewrite !Z.pow_add_r by lia. ring.
  - rewrite shr_1_m by assumption. reflexivity.
Qed.

Lemma fexp_eq (x : Z) : fexp 53 1024 x = Z.max (x - 53) (-1074).
Proof. reflexivity. Qed.

Lemma within_finite (k : Z) (s : bool) (m : positive) (e : Z) :
  within k (S754_finite s m e) = true
  <-> Z.max (Zdigits2 (Zpos m) + e - 53) (-1074) = e
      /\ e <= 971 /\ Zdigits2 (Zpos m) + e <= k.
Proof.
  unfold within, valid_binary, bounded, canonical_mantissa.
  rewrite fexp_eq. cbn [Zdigits2].
  rewrite !andb_true_iff, Z.eqb_eq, !Z.leb_le.
  change (1024 - 53) with 971. tauto.
Qed.

Lemma within_isfinite (k : Z) (v : binary64) :
  within k v = true -> b64_isfinite v = true.
Proof.
  destruct v; cbn; try reflexivity; rewrite ?andb_false_r; intros H; exact H.
Qed.

Lemma within_weaken (k k' : Z) (v : binary64) :
  k <= k' -> within k v = true -> within k' v = true.
Proof.
  intros Hk. destruct v as [s | s | | s m e]; try (cbn; congruence).
  rewrite !within_finite. lia.
Qed.

Lemma shr_record_of_loc_m (m : Z) (l : location) :
  shr_m (shr_record_of_loc m l) = m.
Proof. destruct l as [| []]; reflexivity. Qed.

(** The right shift that brings a mantissa to the exponent its magnitude
    calls for. *)
Lemma shr_fexp_spec (m e : Z) (l : location) :
  0 <= m -> e <= fexp 53 1024 (Zdigits2 m + e) ->
  exists mrs : shr_record,
    shr_fexp 53 1024 m e l = (mrs, fexp 53 1024 (Zdigits2 m + e))
    /\ shr_m mrs = m / 2 ^ (fexp 53 1024 (Zdigits2 m + e) - e).
Proof.
  intros Hm He. unfold shr_fexp, shr.
  destruct (fexp 53 1024 (Zdigits2 m + e) - e) as [| p | p] eqn:Hn.
  - eexists. split.
    + f_equal. lia.
    + rewrite shr_record_of_loc_m. cbn. now rewrite Z.div_1_r.
  - eexists. split.
    + f_equal. lia.
    + rewrite shr_m_iter by (rewrite shr_record_of_loc_m; assumption).
      now rewrite shr_record_of_loc_m.
  - lia.
Qed.

Lemma round_nearest_even_bounds (m : Z) (l : location) :
  m <= round_nearest_even m l <= m + 1.
Proof.
  destruct l as [| []]; cbn [round_nearest_even]; try lia.
  destruct (Z.even m); lia.
Qed.

(** Rounding a non-negative mantissa, given at an exponent not above the
    one its magnitude calls for: the result carries the sign asked for and
    is a zero, a canonical finite number whose magnitude has grown by at
    most one binary digit, or, only when that magnitude passes 2^1024, an
    infinity. *)
Lemma binary_round_aux_spec (sx : bool) (mx ex : Z) (lx : location) :
  0 <= mx ->
  ex <= fexp 53 1024 (Zdigits2 mx + ex) ->
  match binary_round_aux 53 1024 sx mx ex lx with
  | S754_zero s => s = sx
  | S754_infinity s => s = sx /\ 1023 < Z.max (Zdigits2 mx + ex) (-1074)
  | S754_finite s m e =>
      s = sx
      /\ within (Z.max (Zdigits2 mx + ex) (-1074) + 1) (S754_finite s m e) = true
  | S754_nan => False
  end.
Proof.
  intros Hmx Hex. unfold binary_round_aux.
  set (k := Z.max (Zdigits2 mx + ex) (-1074)).
  assert (Hmag : Zdigits2 mx + ex <= k) by lia.
  assert (Hlo : -1074 <= k) by lia.
  clearbody k.
  destruct (shr_fexp_spec mx ex lx Hmx Hex) as [mrs1 [-> Hm1]].
  set (e1 := fexp 53 1024 (Zdigits2 mx + ex)) in *.
  set (m1 := shr_m mrs1) in *.
  pose proof (round_nearest_even_bounds m1 (loc_of_shr_record mrs1)) as Hm2.
  remember (round_nearest_even m1 (loc_of_shr_record mrs1)) as m2 eqn:Hm2def.
  clear Hm2def.
  assert (Hn1 : 0 <= e1 - ex) by lia.
  assert (Hm1nn : 0 <= m1).
  { rewrite Hm1. apply Z.div_pos; [assumption |]. apply Z.pow_pos_nonneg; lia. }
  assert (He1 : e1 = Z.max (Zdigits2 mx + ex - 53) (-1074)) by reflexivity.
  (* the magnitude after the first shift and the rounding *)
  assert (Hd2 : m2 = 0 \/ (0 < m2 /\ Zdigits2 m2 + e1 <= k + 1
                           /\ e1 <= fexp 53 1024 (Zdigits2 m2 + e1))).
  { destruct (Z.eq_dec m2 0) as [Hz | Hnz]; [left; assumption | right].
    split; [lia |]. rewrite fexp_eq.
    destruct (Z.eq_dec m1 0) as [Hz1 | Hnz1].
    - (* everything was shifted out: the rounding gave the least number *)
      assert (m2 = 1) by lia. subst m2.
      change (Zdigits2 1) with 1.
      destruct (Z.eq_dec mx 0) as [Hmx0 | Hmx0].
      + subst mx. change (Zdigits2 0) with 0 in *. lia.
      + assert (Zdigits2 mx <= e1 - ex).
        { apply Zdigits2_div_pow2_zero; first [lia | fold m1 in Hm1; lia]. }
        lia.
    - assert (Hmxpos : 0 < mx).
      { destruct (Z.eq_dec mx 0) as [Hmx0 | Hmx0]; [| lia].
        exfalso. apply Hnz1. rewrite Hm1, Hmx0. apply Z.div_0_l.
        apply Z.pow_nonzero; lia. }
      assert (Hd1 : Zdigits2 m1 = Zdigits2 mx - (e1 - ex)).
      { rewrite Hm1. apply Zdigits2_div_pow2; first [lia | rewrite <- Hm1; lia]. }
      assert (Hup : Zdigits2 m2 <= Zdigits2 m1 + 1).
      { apply Zdigits2_le; try lia.
        - pose proof (Zdigits2_nonneg m1). lia.
        - pose proof (Zdigits2_bound m1 ltac:(lia)) as Hb.
          rewrite Z.pow_add_r by (pose proof (Zdigits2_nonneg m1); lia).
          lia. }
      assert (Hdn : Zdigits2 m1 <= Zdigits2 m2).
      { apply Zdigits2_mono; lia. }
      lia. }
  destruct Hd2 as [Hz | [Hpos [Hmag2 Hex2]]].
  - (* the rounded mantissa is 0 *)
    rewrite Hz. unfold shr_fexp, shr. change (Zdigits2 0) with 0.
    rewrite fexp_eq.
    destruct (Z.max (0 + e1 - 53) (-1074) - e1) as [| p | p] eqn:Hn;
      [reflexivity | lia | reflexivity].
  - destruct (shr_fexp_spec m2 e1 loc_Exact ltac:(lia) Hex2) as [mrs3 [-> Hm3]].
    set (e2 := fexp 53 1024 (Zdigits2 m2 + e1)) in *.
    assert (He2 : e2 = Z.max (Zdigits2 m2 + e1 - 53) (-1074)) by reflexivity.
    destruct (shr_m mrs3) as [| m3 | m3] eqn:Hm3v.
    + reflexivity.
    + assert (Hd3 : Zdigits2 (Zpos m3) = Zdigits2 m2 - (e2 - e1)).
      { rewrite Hm3. apply Zdigits2_div_pow2; first [lia | rewrite <- Hm3; lia]. }
      change (1024 - 53) with 971.
      destruct (Z.leb_spec e2 971) as [Hle | Hgt].
      * split; [reflexivity |]. apply within_finite. lia.
      * split; [reflexivity | lia].
    + assert (0 <= m2 / 2 ^ (e2 - e1)).
      { apply Z.div_pos; [lia |]. apply Z.pow_pos_nonneg; lia. }
      lia.
Qed.

(** The same when the magnitude is at most [k] and [2 ^ k] is in range: a
    binary64 number of magnitude at most [k + 1]. *)
Lemma binary_round_aux_within (sx : bool) (mx ex : Z) (lx : location) (k : Z) :
  0 <= mx ->
  ex <= fexp 53 1024 (Zdigits2 mx + ex) ->
  Zdigits2 mx + ex <= k ->
  -1074 <= k -> k <= 1023 ->
  within (k + 1) (binary_round_aux 53 1024 sx mx ex lx) = true.
Proof.
  intros Hmx Hex Hmag Hlo Hhi.
  pose proof (binary_round_aux_spec sx mx ex lx Hmx Hex) as Hspec.
  destruct (binary_round_aux 53 1024 sx mx ex lx) as [s | s | | s m e].
  - reflexivity.
  - lia.
  - contradiction.
  - destruct Hspec as [_ Hw].
    apply (within_weaken (Z.max (Zdigits2 mx + ex) (-1074) + 1)); [lia | exact Hw].
Qed.

Lemma iter_xO (p d : positive) : Zpos (Pos.iter xO p d) = Zpos p * 2 ^ Zpos d.
Proof.
  induction d as [| d IH] using Pos.peano_ind.
  - cbn [Pos.iter]. lia.
  - rewrite Pos.iter_succ, Pos2Z.inj_xO, IH, Pos2Z.inj_succ.
    rewrite Z.pow_succ_r by lia. ring.
Qed.

Lemma Zdigits2_mul_pow2 (m n : Z) :
  0 < m -> 0 <= n -> Zdigits2 (m * 2 ^ n) = Zdigits2 m + n.
Proof.
  intros Hm Hn.
  assert (0 < 2 ^ n) by (apply Z.pow_pos_nonneg; lia).
  rewrite !Zdigits2_log2 by nia.
  rewrite Z.log2_mul_pow2 by lia. lia.
Qed.

Lemma shl_align_spec (mx : positive) (ex e' : Z) :
  exists mz ez : _,
    shl_align mx ex e' = (mz, ez)
    /\ ez = Z.min ex e'
    /\ Zpos mz = Zpos mx * 2 ^ (ex - ez).
Proof.
  unfold shl_align. destruct (e' - ex) as [| d | d] eqn:Hd.
  - exists mx, ex. repeat split; [lia |].
    replace (ex - ex) with 0 by lia. cbn. lia.
  - exists mx, ex. repeat split; [lia |].
    replace (ex - ex) with 0 by lia. cbn. lia.
  - exists (Pos.iter xO mx d), e'. repeat split; [lia |].
    rewrite iter_xO. f_equal. f_equal. lia.
Qed.

(** Rounding a positive mantissa at any exponent. *)
Lemma binary_round_within (sx : bool) (mx : positive) (ex k : Z) :
  Zdigits2 (Zpos mx) + ex <= k -> -1074 <= k -> k <= 1023 ->
  within (k + 1) (binary_round 53 1024 sx mx ex) = true.
Proof.
  intros Hmag Hlo Hhi. unfold binary_round.
  destruct (shl_align_spec mx ex (fexp 53 1024 (Zpos (digits2_pos mx) + ex)))
    as [mz [ez [-> [Hez Hmz]]]].
  change (Zpos (digits2_pos mx)) with (Zdigits2 (Zpos mx)) in Hez.
  assert (Hd : Zdigits2 (Zpos mz) + ez = Zdigits2 (Zpos mx) + ex).
  { rewrite Hmz, Zdigits2_mul_pow2 by lia. lia. }
  apply binary_round_aux_within; try lia.
  rewrite Hd. lia.
Qed.

Lemma binary_normalize_within (m e k : Z) :
  Zdigits2 (Z.abs m) + e <= k -> -1074 <= k -> k <= 1023 ->
  within (k + 1) (binary_normalize 53 1024 m e false) = true.
Proof.
  intros Hmag Hlo Hhi. unfold binary_normalize.
  destruct m as [| p | p]; [reflexivity | |];
    apply binary_round_within; assumption.
Qed.

(** The magnitude of a sum or difference of two aligned mantissas. *)
Lemma aligned_sum_digits (mx my : positive) (ex ey a b : Z) (m : Z) :
  Zdigits2 (Zpos mx) + ex <= a ->
  Zdigits2 (Zpos my) + ey <= b ->
  Z.abs m <= Zpos mx * 2 ^ (ex - Z.min ex ey) + Zpos my * 2 ^ (ey - Z.min ex ey) ->
  Zdigits2 (Z.abs m) + Z.min ex ey <= Z.max a b + 1.
Proof.
  intros Ha Hb Hm.
  set (ez := Z.min ex ey) in *.
  destruct (Z.eq_dec m 0) as [-> | Hnz].
  { cbn. pose proof (Zdigits2_pos (Zpos mx) ltac:(lia)). lia. }
  assert (Hx : Zpos mx * 2 ^ (ex - ez) < 2 ^ (Z.max a b - ez)).
  { pose proof (Zdigits2_bound (Zpos mx * 2 ^ (ex - ez))) as Hbx.
    assert (0 < 2 ^ (ex - ez)) by (apply Z.pow_pos_nonneg; lia).
    rewrite Zdigits2_mul_pow2 in Hbx by lia.
    specialize (Hbx ltac:(nia)).
    eapply Z.lt_le_trans; [exact Hbx |].
    apply Z.pow_le_mono_r; lia. }
  assert (Hy : Zpos my * 2 ^ (ey - ez) < 2 ^ (Z.max a b - ez)).
  { pose proof (Zdigits2_bound (Zpos my * 2 ^ (ey - ez))) as Hby.
    assert (0 < 2 ^ (ey - ez)) by (apply Z.pow_pos_nonneg; lia).
    rewrite Zdigits2_mul_pow2 in Hby by lia.
    specialize (Hby ltac:(nia)).
    eapply Z.lt_le_trans; [exact Hby |].
    apply Z.pow_le_mono_r; lia. }
  pose proof (Zdigits2_pos (Zpos mx) ltac:(lia)).
  assert (Zdigits2 (Z.abs m) <= Z.max a b - ez + 1).
  { apply Zdigits2_le; try lia.
    rewrite Z.pow_add_r by lia. lia. }
  lia.
Qed.

Lemma SFadd_within (a b : Z) (x y : binary64) :
  within a x = true -> within b y = true ->
  -1075 <= Z.max a b -> Z.max a b <= 1022 ->
  within (Z.max a b + 2) (SFadd 53 1024 x y) = true.
Proof.
  intros Hx Hy Hlo Hhi.
  destruct x as [sx | sx | | sx mx ex]; try discriminate;
    destruct y as [sy | sy | | sy my ey]; try discriminate.
  - destruct sx, sy; reflexivity.
  - apply (within_weaken b); [lia | exact Hy].
  - apply (within_weaken a); [lia | exact Hx].
  - apply within_finite in Hx, Hy. cbn [SFadd].
    destruct (shl_align_spec mx ex (Z.min ex ey)) as [mx' [ex' [-> [Hex' Hmx']]]].
    destruct (shl_align_spec my ey (Z.min ex ey)) as [my' [ey' [-> [Hey' Hmy']]]].
    assert (Hex : ex' = Z.min ex ey) by lia.
    assert (Hey : ey' = Z.min ex ey) by lia.
    rewrite Hex in Hmx'. rewrite Hey in Hmy'. clear Hex' Hey' Hex Hey.
    cbn [fst]. rewrite Hmx', Hmy'.
    replace (Z.max a b + 2) with (Z.max a b + 1 + 1) by lia.
    apply binary_normalize_within; try lia.
    apply (aligned_sum_digits mx my ex ey a b); try lia.
    assert (0 < Zpos mx * 2 ^ (ex - Z.min ex ey))
      by (apply Z.mul_pos_pos; [lia | apply Z.pow_pos_nonneg; lia]).
    assert (0 < Zpos my * 2 ^ (ey - Z.min ex ey))
      by (apply Z.mul_pos_pos; [lia | apply Z.pow_pos_nonneg; lia]).
    destruct sx, sy; cbn [cond_Zopp]; lia.
Qed.

Lemma SFsub_within (a b : Z) (x y : binary64) :
  within a x = true -> within b y = true ->
  -1075 <= Z.max a b -> Z.max a b <= 1022 ->
  within (Z.max a b + 2) (SFsub 53 1024 x y) = true.
Proof.
  intros Hx Hy Hlo Hhi.
  destruct x as [sx | sx | | sx mx ex]; try discriminate;
    destruct y as [sy | sy | | sy my ey]; try discriminate.
  - destruct sx, sy; reflexivity.
  - cbn [SFsub]. apply (within_weaken b); [lia |].
    apply within_finite in Hy. apply within_finite. exact Hy.
  - apply (within_weaken a); [lia | exact Hx].
  - apply within_finite in Hx, Hy. cbn [SFsub].
    destruct (shl_align_spec mx ex (Z.min ex ey)) as [mx' [ex' [-> [Hex' Hmx']]]].
    destruct (shl_align_spec my ey (Z.min ex ey)) as [my' [ey' [-> [Hey' Hmy']]]].
    assert (Hex : ex' = Z.min ex ey) by lia.
    assert (Hey : ey' = Z.min ex ey) by lia.
    rewrite Hex in Hmx'. rewrite Hey in Hmy'. clear Hex' Hey' Hex Hey.
    cbn [fst]. rewrite Hmx', Hmy'.
    replace (Z.max a b + 2) with (Z.max a b + 1 + 1) by lia.
    apply binary_normalize_within; try lia.
    apply (aligned_sum_digits mx my ex ey a b); try lia.
    assert (0 < Zpos mx * 2 ^ (ex - Z.min ex ey))
      by (apply Z.mul_pos_pos; [lia | apply Z.pow_pos_nonneg; lia]).
    assert (0 < Zpos my * 2 ^ (ey - Z.min ex ey))
      by (apply Z.mul_pos_pos; [lia | apply Z.pow_pos_nonneg; lia]).
    destruct sx, sy; cbn [cond_Zopp]; lia.
Qed.

Lemma SFmul_within (a b : Z) (x y : binary64) :
  within a x = true -> within b y = true ->
  -1074 <= a + b -> a + b <= 1023 ->
  within (a + b + 1) (SFmul 53 1024 x y) = true.
Proof.
  intros Hx Hy Hlo Hhi.
  destruct x as [sx | sx | | sx mx ex]; try discriminate;
    destruct y as [sy | sy | | sy my ey]; try discriminate;
    try reflexivity.
  apply within_finite in Hx, Hy. cbn [SFmul].
  rewrite Pos2Z.inj_mul.
  assert (Hlow : Zdigits2 (Zpos mx) + Zdigits2 (Zpos my) - 1
                 <= Zdigits2 (Zpos mx * Zpos my)).
  { rewrite !Zdigits2_log2 by lia.
    pose proof (Z.log2_mul_below (Zpos mx) (Zpos my)). lia. }
  assert (Hupp : Zdigits2 (Zpos mx * Zpos my)
                 <= Zdigits2 (Zpos mx) + Zdigits2 (Zpos my)).
  { rewrite !Zdigits2_log2 by lia.
    pose proof (Z.log2_mul_above (Zpos mx) (Zpos my)). lia. }
  pose proof (Zdigits2_pos (Zpos mx) ltac:(lia)).
  pose proof (Zdigits2_pos (Zpos my) ltac:(lia)).
  apply binary_round_aux_within; try lia.
  rewrite fexp_eq. lia.
Qed.

Lemma SFabs_within (k : Z) (x : binary64) :
  within k x = true -> within k (SFabs x) = true.
Proof.
  destruct x as [s | s | | s m e]; try discriminate; [reflexivity |].
  cbn [SFabs]. rewrite !within_finite. tauto.
Qed.

Lemma Zdigits2_ge (m d : Z) : 0 <= d -> 2 ^ d <= m -> d + 1 <= Zdigits2 m.
Proof.
  intros Hd Hle.
  assert (0 < 2 ^ d) by (apply Z.pow_pos_nonneg; lia).
  rewrite Zdigits2_log2 by lia.
  assert (d <= Z.log2 m) by (apply Z.log2_le_pow2; lia). lia.
Qed.

Lemma Zdigits2_lower (m : Z) : 0 < m -> 2 ^ (Zdigits2 m - 1) <= m.
Proof.
  intros Hm. rewrite Zdigits2_log2 by assumption.
  replace (Z.log2 m + 1 - 1) with (Z.log2 m) by lia.
  apply Z.log2_spec. assumption.
Qed.

(** A quotient has at least as many digits as the dividend has more than
    the divisor. *)
Lemma Zdigits2_div (a b : Z) :
  0 < a -> 0 < b -> Zdigits2 a - Zdigits2 b <= Zdigits2 (a / b).
Proof.
  intros Ha Hb.
  pose proof (Zdigits2_nonneg (a / b)) as Hq.
  destruct (Z_le_gt_dec (Zdigits2 a - Zdigits2 b) 0) as [Hsmall | Hbig];
    [lia |].
  pose proof (Zdigits2_lower a Ha) as Hla.
  pose proof (Zdigits2_bound b Hb) as Hub.
  pose proof (Zdigits2_pos b Hb) as Hdb.
  assert (Hsplit : 2 ^ (Zdigits2 a - 1)
                   = 2 ^ (Zdigits2 a - Zdigits2 b - 1) * 2 ^ Zdigits2 b).
  { rewrite <- Z.pow_add_r by lia. f_equal. lia. }
  assert (Hp : 0 < 2 ^ (Zdigits2 a - Zdigits2 b - 1))
    by (apply Z.pow_pos_nonneg; lia).
  assert (Hge : 2 ^ (Zdigits2 a - Zdigits2 b - 1) <= a / b).
  { apply Z.div_le_lower_bound; [lia |]. nia. }
  pose proof (Zdigits2_ge (a / b) (Zdigits2 a - Zdigits2 b - 1) ltac:(lia) Hge).
  lia.
Qed.

Lemma div_eucl_quotient (a b q r : Z) : Z.div_eucl a b = (q, r) -> q = a / b.
Proof. intros Hqr. unfold Z.div. now rewrite Hqr. Qed.

(** The quotient mantissa and exponent that division hands to the
    rounding. *)
Lemma SFdiv_core_spec (m1 e1 m2 e2 : Z) :
  0 < m1 -> 0 < m2 ->
  exists (q e' : Z) (l : location),
    SFdiv_core_binary 53 1024 m1 e1 m2 e2 = (q, e', l)
    /\ 0 <= q
    /\ e' <= fexp 53 1024 (Zdigits2 q + e').
Proof.
  intros Hm1 Hm2. unfold SFdiv_core_binary.
  set (e' := Z.min (fexp 53 1024 (Zdigits2 m1 + e1 - (Zdigits2 m2 + e2)))
                   (e1 - e2)).
  assert (He' : e' = Z.min (Z.max (Zdigits2 m1 + e1 - (Zdigits2 m2 + e2) - 53)
                              (-1074)) (e1 - e2)) by reflexivity.
  clearbody e'.
  set (m' := match e1 - e2 - e' with
             | 0 => m1
             | Z.pos _ => Z.shiftl m1 (e1 - e2 - e')
             | Z.neg _ => 0
             end).
  assert (Hm' : m' = m1 * 2 ^ (e1 - e2 - e')).
  { unfold m'. destruct (e1 - e2 - e') as [| p | p] eqn:Hs.
    - cbn. lia.
    - apply Z.shiftl_mul_pow2. lia.
    - lia. }
  clearbody m'.
  destruct (Z.div_eucl m' m2) as [q r] eqn:Hqr.
  apply div_eucl_quotient in Hqr.
  exists q, e', (new_location m2 r). split; [reflexivity |].
  assert (Hp : 0 < 2 ^ (e1 - e2 - e')) by (apply Z.pow_pos_nonneg; lia).
  assert (Hm'pos : 0 < m') by nia.
  assert (Hd' : Zdigits2 m' = Zdigits2 m1 + (e1 - e2 - e')).
  { rewrite Hm'. apply Zdigits2_mul_pow2; lia. }
  assert (Hq : 0 <= q) by (rewrite Hqr; apply Z.div_pos; lia).
  split; [exact Hq |]. rewrite fexp_eq.
  destruct (Z.eq_dec q 0) as [Hq0 | Hq0].
  - rewrite Hq0. change (Zdigits2 0) with 0.
    assert (m' < m2).
    { rewrite Hqr in Hq0. apply Z.div_small_iff in Hq0; lia. }
    assert (Zdigits2 m' <= Zdigits2 m2) by (apply Zdigits2_mono; lia).
    lia.
  - pose proof (Zdigits2_div m' m2 Hm'pos Hm2) as Hdq.
    rewrite <- Hqr in Hdq. lia.
Qed.

(** The digits of an integer square root. *)
Lemma Zdigits2_sqrt (n : Z) :
  0 < n -> Zdigits2 (Z.sqrt n) = (Zdigits2 n + 1) / 2.
Proof.
  intros Hn.
  pose proof (Z.sqrt_spec n ltac:(lia)) as [Hlo Hhi].
  pose proof (Z.sqrt_nonneg n) as Hq.
  pose proof (Zdigits2_lower n Hn) as Hln.
  pose proof (Zdigits2_bound n Hn) as Hun.
  pose proof (Zdigits2_pos n Hn) as Hdn.
  set (d := Zdigits2 n) in *.
  set (h := (d + 1) / 2).
  assert (Hh : 2 * h - 1 <= d <= 2 * h).
  { unfold h. pose proof (Z.div_mod (d + 1) 2 ltac:(lia)).
    pose proof (Z.mod_pos_bound (d + 1) 2 ltac:(lia)). lia. }
  assert (Hqpos : 0 < Z.sqrt n) by (apply Z.sqrt_pos; lia).
  apply Z.le_antisymm.
  - (* sqrt n < 2 ^ h *)
    apply Zdigits2_le; try lia.
    assert (Hpow : 2 ^ d <= 2 ^ h * 2 ^ h).
    { rewrite <- Z.pow_add_r by lia. apply Z.pow_le_mono_r; lia. }
    assert (0 < 2 ^ h) by (apply Z.pow_pos_nonneg; lia).
    nia.
  - (* 2 ^ (h - 1) <= sqrt n *)
    assert (Hpow : 2 ^ (h - 1) * 2 ^ (h - 1) <= 2 ^ (d - 1)).
    { rewrite <- Z.pow_add_r by lia. apply Z.pow_le_mono_r; lia. }
    assert (0 < 2 ^ (h - 1)) by (apply Z.pow_pos_nonneg; lia).
    assert (2 ^ (h - 1) <= Z.sqrt n) by nia.
    pose proof (Zdigits2_ge (Z.sqrt n) (h - 1) ltac:(lia) ltac:(lia)). lia.
Qed.

(** The root mantissa and exponent that the square root hands to the
    rounding. *)
Lemma SFsqrt_core_spec (m e : Z) :
  0 < m ->
  exists (q e' : Z) (l : location),
    SFsqrt_core_binary 53 1024 m e = (q, e', l)
    /\ 0 <= q
    /\ e' <= fexp 53 1024 (Zdigits2 q + e')
    /\ Zdigits2 q + e' = (Zdigits2 m + e + 1) / 2.
Proof.
  intros Hm. unfold SFsqrt_core_binary.
  rewrite !Z.div2_div.
  set (e' := Z.min (fexp 53 1024 ((Zdigits2 m + e + 1) / 2)) (e / 2)).
  assert (He' : e' = Z.min (Z.max ((Zdigits2 m + e + 1) / 2 - 53) (-1074))
                       (e / 2)) by reflexivity.
  clearbody e'.
  pose proof (Z.div_mod e 2 ltac:(lia)) as He2.
  pose proof (Z.mod_pos_bound e 2 ltac:(lia)) as He2b.
  set (m' := match e - 2 * e' with
             | 0 => m
             | Z.pos _ => Z.shiftl m (e - 2 * e')
             | Z.neg _ => 0
             end).
  assert (Hm' : m' = m * 2 ^ (e - 2 * e')).
  { unfold m'. destruct (e - 2 * e') as [| p | p] eqn:Hs.
    - cbn. lia.
    - apply Z.shiftl_mul_pow2. lia.
    - lia. }
  clearbody m'.
  assert (Hp : 0 < 2 ^ (e - 2 * e')) by (apply Z.pow_pos_nonneg; lia).
  assert (Hm'pos : 0 < m') by nia.
  pose proof (Z.sqrtrem_sqrt m') as Hsq.
  destruct (Z.sqrtrem m') as [q r]. cbn [fst] in Hsq. subst q.
  eexists _, _, _. split; [reflexivity |].
  assert (Hdq : Zdigits2 (Z.sqrt m') + e' = (Zdigits2 m + e + 1) / 2).
  { rewrite Zdigits2_sqrt by assumption.
    rewrite Hm', Zdigits2_mul_pow2 by lia.
    replace (Zdigits2 m + (e - 2 * e') + 1)
      with (Zdigits2 m + e + 1 + (- e') * 2) by lia.
    rewrite Z.div_add by lia. lia. }
  split; [apply Z.sqrt_nonneg |]. split; [| exact Hdq].
  rewrite Hdq, fexp_eq. lia.
Qed.

(** Every binary64 number has magnitude at most 1024. *)
Lemma within_1024 (k : Z) (v : binary64) :
  within k v = true -> within 1024 v = true.
Proof.
  destruct v as [s | s | | s m e]; try (cbn; congruence).
  rewrite !within_finite. lia.
Qed.

Lemma canonical_mul_exponent (mx my : positive) (ex ey : Z) :
  Z.max (Zdigits2 (Zpos mx) + ex - 53) (-1074) = ex ->
  Z.max (Zdigits2 (Zpos my) + ey - 53) (-1074) = ey ->
  ex + ey <= fexp 53 1024 (Zdigits2 (Zpos mx * Zpos my) + (ex + ey)).
Proof.
  intros Hx Hy.
  assert (Hlow : Zdigits2 (Zpos mx) + Zdigits2 (Zpos my) - 1
                 <= Zdigits2 (Zpos mx * Zpos my)).
  { rewrite !Zdigits2_log2 by lia.
    pose proof (Z.log2_mul_below (Zpos mx) (Zpos my)). lia. }
  pose proof (Zdigits2_pos (Zpos mx) ltac:(lia)).
  pose proof (Zdigits2_pos (Zpos my) ltac:(lia)).
  rewrite fexp_eq. lia.
Qed.

(** A square is not negative. *)
Lemma SFmul_self_sign (a : Z) (x : binary64) :
  within a x = true -> -1074 <= a + a -> a + a <= 1023 ->
  sign_bit (SFmul 53 1024 x x) = false.
Proof.
  intros Hx Hlo Hhi.
  pose proof (SFmul_within a a x x Hx Hx Hlo Hhi) as Hw.
  destruct x as [s | s | | s m e]; try discriminate.
  - cbn. now destruct s.
  - apply within_finite in Hx. cbn [SFmul] in *.
    rewrite Pos2Z.inj_mul in *.
    pose proof (binary_round_aux_spec (xorb s s) (Zpos m * Zpos m) (e + e)
                  loc_Exact ltac:(lia)
                  (canonical_mul_exponent m m e e ltac:(tauto) ltac:(tauto)))
      as Hspec.
    destruct (binary_round_aux 53 1024 (xorb s s) (Zpos m * Zpos m) (e + e)
                loc_Exact) as [s' | s' | | s' m' e'];
      try discriminate; cbn [sign_bit];
      [rewrite Hspec | destruct Hspec as [-> _]]; now destruct s.
Qed.

(** A sum of two numbers that are not negative is not negative. *)
Lemma SFadd_sign (a b : Z) (x y : binary64) :
  within a x = true -> within b y = true ->
  sign_bit x = false -> sign_bit y = false ->
  sign_bit (SFadd 53 1024 x y) = false.
Proof.
  intros Hx Hy Hsx Hsy.
  destruct x as [sx | sx | | sx mx ex]; try discriminate;
    destruct y as [sy | sy | | sy my ey]; try discriminate;
    cbn [sign_bit] in Hsx, Hsy; subst; try reflexivity.
  cbn [SFadd cond_Zopp].
  destruct (shl_align_spec mx ex (Z.min ex ey)) as [mx' [ex' [-> [_ _]]]].
  destruct (shl_align_spec my ey (Z.min ex ey)) as [my' [ey' [-> [_ _]]]].
  cbn [fst]. rewrite <- Pos2Z.inj_add. cbn [binary_normalize].
  unfold binary_round.
  destruct (shl_align_spec (mx' + my') (Z.min ex ey)
              (fexp 53 1024 (Zpos (digits2_pos (mx' + my')) + Z.min ex ey)))
    as [mz [ez [-> [Hez Hmz]]]].
  change (Zpos (digits2_pos (mx' + my'))) with (Zdigits2 (Zpos (mx' + my'))) in Hez.
  assert (Hd : Zdigits2 (Zpos mz) + ez
               = Zdigits2 (Zpos (mx' + my')) + Z.min ex ey).
  { rewrite Hmz, Zdigits2_mul_pow2 by lia. lia. }
  pose proof (binary_round_aux_spec false (Zpos mz) ez loc_Exact ltac:(lia)
                ltac:(rewrite Hd; lia)) as Hspec.
  destruct (binary_round_aux 53 1024 false (Zpos mz) ez loc_Exact)
    as [s' | s' | | s' m' e']; cbn [sign_bit]; try tauto.
Qed.

(** The square root of a number that is not negative is a number that is not
    negative. *)
Lemma SFsqrt_within (k : Z) (x : binary64) :
  within k x = true -> sign_bit x = false ->
  within 1024 (SFsqrt 53 1024 x) = true
  /\ sign_bit (SFsqrt 53 1024 x) = false.
Proof.
  intros Hx Hs.
  destruct x as [s | s | | s m e]; try discriminate;
    cbn [sign_bit] in Hs; subst s.
  - split; reflexivity.
  - apply within_finite in Hx. cbn [SFsqrt].
    destruct (SFsqrt_core_spec (Zpos m) e ltac:(lia))
      as [q [e' [l [-> [Hq [He' Hmag]]]]]].
    pose proof (binary_round_aux_spec false q e' l Hq He') as Hspec.
    assert (Hhalf : (Zdigits2 (Zpos m) + e + 1) / 2 <= 513).
    { apply Z.div_le_upper_bound; lia. }
    destruct (binary_round_aux 53 1024 false q e' l) as [s' | s' | | s' m' e''].
    + subst s'. split; reflexivity.
    + lia.
    + contradiction.
    + destruct Hspec as [-> Hw]. split; [| reflexivity].
      apply (within_1024 _ _ Hw).
Qed.

Lemma SFdiv_radius_like (x w : binary64) :
  within 1024 x = true -> sign_bit x = false ->
  within 1024 w = true -> SFeqb w (S754_zero false) = false ->
  radius_like (SFdiv 53 1024 x (SFabs w)).
Proof.
  intros Hx Hsx Hw Hnz.
  destruct w as [sw | sw | | sw mw ew]; try discriminate.
  cbn [SFabs].
  destruct x as [s | s | | s m e]; try discriminate;
    cbn [sign_bit] in Hsx; subst s.
  - right. split; reflexivity.
  - cbn [SFdiv xorb].
    destruct (SFdiv_core_spec (Zpos m) e (Zpos mw) ew ltac:(lia) ltac:(lia))
      as [q [e' [l [-> [Hq He']]]]].
    pose proof (binary_round_aux_spec false q e' l Hq He') as Hspec.
    destruct (binary_round_aux 53 1024 false q e' l) as [s' | s' | | s' m' e''].
    + subst s'. right. split; reflexivity.
    + destruct Hspec as [-> _]. left. reflexivity.
    + contradiction.
    + destruct Hspec as [-> Hwi]. right. split; [| reflexivity].
      apply (within_1024 _ _ Hwi).
Qed.

(** A number that is not negative and lies below [t] has at most the
    magnitude of [t]. *)
Lemma SFleb_false_within (k : Z) (t r : binary64) :
  within k t = true -> within 1024 r = true -> sign_bit r = false ->
  SFleb t r = false ->
  within k r = true.
Proof.
  intros Ht Hr Hs Hcmp.
  destruct r as [sr | sr | | sr mr er]; try discriminate; [reflexivity |].
  cbn [sign_bit] in Hs. subst sr.
  destruct t as [st | st | | st mt et]; try discriminate.
  destruct st; [cbn in Hcmp; discriminate |].
  apply within_finite in Ht, Hr. apply within_finite.
  unfold SFleb, SFcompare in Hcmp.
  pose proof (Zdigits2_pos (Zpos mr) ltac:(lia)).
  pose proof (Zdigits2_pos (Zpos mt) ltac:(lia)).
  destruct (Z.compare_spec et er) as [Heq | Hlt | Hgt]; try discriminate.
  - change (Pos.compare_cont Eq mt mr) with (mt ?= mr)%positive in Hcmp.
    destruct (Pos.compare_spec mt mr) as [Hmeq | Hmlt | Hmgt]; try discriminate.
    assert (Zdigits2 (Zpos mr) <= Zdigits2 (Zpos mt))
      by (apply Zdigits2_mono; lia).
    lia.
  - lia.
Qed.

Lemma SFadd_zero_r (k : Z) (x : binary64) :
  within k x = true -> within k (SFadd 53 1024 x (S754_zero false)) = true.
Proof.
  destruct x as [s | s | | s m e]; try discriminate; [| trivial].
  now destruct s.
Qed.

(** The penalty of a radius against a bound that is a number below 2^1022
    is finite. *)
Lemma penalty_radius_finite (r mtr : binary64)
    (libm_cos libm_sin : binary64 -> binary64) :
  within 1022 mtr = true -> radius_like r ->
  b64_isfinite
    (penaltyBoundFromBelow (ST := Scalar_binary64 libm_cos libm_sin)
       r mtr (S754_zero false)) = true.
Proof.
  intros Hmtr Hr. unfold penaltyBoundFromBelow.
  cbn [s_leb s_add s_sub s_zero Scalar_binary64].
  pose proof (SFadd_zero_r 1022 mtr Hmtr) as Ht.
  set (t := SFadd 53 1024 mtr (S754_zero false)) in *.
  destruct (SFleb t r) eqn:Hcmp; [reflexivity |].
  destruct Hr as [-> | [Hw Hs]].
  - exfalso. destruct t as [st | st | | st mt et]; try discriminate;
      cbn in Hcmp; discriminate.
  - pose proof (SFleb_false_within 1022 t r Ht Hw Hs Hcmp) as Hr.
    apply (within_isfinite (Z.max 1022 1022 + 2)).
    apply SFsub_within; try assumption; lia.
Qed.

End Rounding.

Section Binary64.
Variables libm_cos libm_sin : binary64 -> binary64.

#[local] Hint Extern 0 (Scalar binary64) =>
  exact (Scalar_binary64 libm_cos libm_sin) : typeclass_instances.

(** The first error component between the far corners is not finite,
    whatever [cos] and [sin] return. *)
Lemma far_corners_error0_not_finite (th1 th2 : binary64) :
  b64_isfinite
    (SFabs
       (SFsub 53 1024
          (SFmul 53 1024 (SFadd 53 1024 (libm_cos th1) (libm_cos th2))
             (S754_infinity false))
          (SFmul 53 1024 (SFadd 53 1024 (libm_sin th1) (libm_sin th2))
             (S754_infinity false)))) = false.
Proof.
  rewrite SFabs_isfinite.
  apply SFsub_not_finite; apply SFmul_inf_not_finite.
Qed.

Lemma diffdrive_far_corners_fault (raw : Edge binary64) (cfg : TebConfig binary64) :
  EdgeKinematicsDiffDrive.computeError
    (diffdrive_edge raw far_corner_lo far_corner_hi cfg)
  = Fault (AssertionFailed diffdrive_finite_msg).
Proof.
  unfold EdgeKinematicsDiffDrive.computeError.
  cbn [diffdrive_edge EdgeKinematicsDiffDrive.setTebConfig set_cfg cfg_ nonnull
       ROS_ASSERT_MSG bind set_vertices _vertices0 _vertices1 deref
       far_corner_lo far_corner_hi position theta vsub coeff0 coeff1
       s_sub s_mul s_add s_fabs s_cos s_sin s_isfinite Scalar_binary64].
  rewrite far_corners_overflow, far_corners_error0_not_finite.
  reflexivity.
Qed.

Lemma b64_checked_div (a w : binary64) :
  SFeqb w (S754_zero false) = false ->
  checked_div a (SFabs w) = Ok (SFdiv 53 1024 a (SFabs w)).
Proof.
  intros Hw. unfold checked_div.
  cbn [s_eqb s_zero s_div Scalar_binary64].
  rewrite SFeqb_abs_zero, Hw. reflexivity.
Qed.

Lemma carlike_far_corners_fault (normalize_theta : binary64 -> binary64)
    (raw : Edge binary64) (cfg : TebConfig binary64) :
  EdgeKinematicsCarlike.computeError normalize_theta
    (carlike_edge raw far_corner_lo far_corner_hi cfg)
  = Fault (AssertionFailed carlike_finite_msg).
Proof.
  unfold EdgeKinematicsCarlike.computeError.
  cbn [carlike_edge EdgeKinematicsCarlike.setTebConfig set_cfg cfg_ nonnull
       ROS_ASSERT_MSG bind set_vertices _vertices0 _vertices1 deref
       far_corner_lo far_corner_hi position theta vsub coeff0 coeff1
       s_sub s_mul s_add s_fabs s_cos s_sin s_isfinite s_eqb s_zero
       Scalar_binary64].
  rewrite far_corners_overflow, far_corners_error0_not_finite.
  destruct (SFeqb (normalize_theta (SFsub 53 1024 b64_zero b64_zero))
              (S754_zero false)) eqn:Hw.
  - reflexivity.
  - rewrite (b64_checked_div _ _ Hw). reflexivity.
Qed.

Section InRange.
Local Open Scope Z_scope.

Lemma pose_within_weaken (k k' : Z) (p : VertexPose binary64) :
  k <= k' -> pose_within k p = true -> pose_within k' p = true.
Proof.
  intros Hk. unfold pose_within. rewrite !andb_true_iff.
  intros [[Hx Hy] Ht]. repeat split; now apply (within_weaken k).
Qed.

Hypothesis cos_range : unit_range libm_cos.
Hypothesis sin_range : unit_range libm_sin.

(** The non-holonomic component between two poses whose coordinates are
    below [2 ^ 1000]. *)
Lemma nh_component_finite (conf1 conf2 : VertexPose binary64) :
  pose_within 1000 conf1 = true -> pose_within 1000 conf2 = true ->
  b64_isfinite
    (SFabs
       (SFsub 53 1024
          (SFmul 53 1024
             (SFadd 53 1024 (libm_cos (theta conf1)) (libm_cos (theta conf2)))
             (SFsub 53 1024 (coeff1 (position conf2)) (coeff1 (position conf1))))
          (SFmul 53 1024
             (SFadd 53 1024 (libm_sin (theta conf1)) (libm_sin (theta conf2)))
             (SFsub 53 1024 (coeff0 (position conf2)) (coeff0 (position conf1))))))
  = true.
Proof.
  unfold pose_within. rewrite !andb_true_iff.
  intros [[Hx1 Hy1] Ht1] [[Hx2 Hy2] Ht2].
  pose proof (cos_range _ (within_isfinite _ _ Ht1)) as Hc1.
  pose proof (cos_range _ (within_isfinite _ _ Ht2)) as Hc2.
  pose proof (sin_range _ (within_isfinite _ _ Ht1)) as Hs1.
  pose proof (sin_range _ (within_isfinite _ _ Ht2)) as Hs2.
  pose proof (SFsub_within 1000 1000 _ _ Hx2 Hx1 ltac:(lia) ltac:(lia)) as Hdx.
  pose proof (SFsub_within 1000 1000 _ _ Hy2 Hy1 ltac:(lia) ltac:(lia)) as Hdy.
  pose proof (SFadd_within 1 1 _ _ Hc1 Hc2 ltac:(lia) ltac:(lia)) as Hc.
  pose proof (SFadd_within 1 1 _ _ Hs1 Hs2 ltac:(lia) ltac:(lia)) as Hs.
  change (Z.max 1000 1000 + 2) with 1002 in *.
  change (Z.max 1 1 + 2) with 3 in *.
  pose proof (SFmul_within 3 1002 _ _ Hc Hdy ltac:(lia) ltac:(lia)) as Hp.
  pose proof (SFmul_within 3 1002 _ _ Hs Hdx ltac:(lia) ltac:(lia)) as Hq.
  change (3 + 1002 + 1) with 1006 in *.
  pose proof (SFsub_within 1006 1006 _ _ Hp Hq ltac:(lia) ltac:(lia)) as Hd.
  apply (within_isfinite (Z.max 1006 1006 + 2)). apply SFabs_within. exact Hd.
Qed.

(** The drive-direction component between two such poses. *)
Lemma dd_component_finite (conf1 conf2 : VertexPose binary64) :
  pose_within 1000 conf1 = true -> pose_within 1000 conf2 = true ->
  b64_isfinite
    (penaltyBoundFromBelow
       (dot (vsub (position conf2) (position conf1))
            (Vec2 (libm_cos (theta conf1)) (libm_sin (theta conf1))))
       (S754_zero false) (S754_zero false)) = true.
Proof.
  unfold pose_within. rewrite !andb_true_iff.
  intros [[Hx1 Hy1] Ht1] [[Hx2 Hy2] Ht2].
  pose proof (cos_range _ (within_isfinite _ _ Ht1)) as Hc1.
  pose proof (sin_range _ (within_isfinite _ _ Ht1)) as Hs1.
  pose proof (SFsub_within 1000 1000 _ _ Hx2 Hx1 ltac:(lia) ltac:(lia)) as Hdx.
  pose proof (SFsub_within 1000 1000 _ _ Hy2 Hy1 ltac:(lia) ltac:(lia)) as Hdy.
  change (Z.max 1000 1000 + 2) with 1002 in *.
  pose proof (SFmul_within 1002 1 _ _ Hdx Hc1 ltac:(lia) ltac:(lia)) as Hp.
  pose proof (SFmul_within 1002 1 _ _ Hdy Hs1 ltac:(lia) ltac:(lia)) as Hq.
  change (1002 + 1 + 1) with 1004 in *.
  pose proof (SFadd_within 1004 1004 _ _ Hp Hq ltac:(lia) ltac:(lia)) as Hd.
  change (Z.max 1004 1004 + 2) with 1006 in *.
  unfold penaltyBoundFromBelow, dot, vsub.
  cbn [s_leb s_add s_sub s_mul s_zero coeff0 coeff1 Scalar_binary64].
  change (SFadd 53 1024 (S754_zero false) (S754_zero false))
    with (S754_zero false).
  match goal with
  | |- b64_isfinite (if ?c then _ else _) = true => destruct c
  end; [reflexivity |].
  apply (within_isfinite (Z.max 0 1006 + 2)).
  apply SFsub_within; [reflexivity | exact Hd | lia | lia].
Qed.

Lemma diffdrive_returns_in_range (raw : Edge binary64)
    (conf1 conf2 : VertexPose binary64) (cfg : TebConfig binary64) :
  pose_within 1000 conf1 = true -> pose_within 1000 conf2 = true ->
  exists e' : Edge binary64,
    EdgeKinematicsDiffDrive.computeError (diffdrive_edge raw conf1 conf2 cfg)
    = Ok e'.
Proof.
  intros H1 H2. unfold EdgeKinematicsDiffDrive.computeError.
  cbn [diffdrive_edge EdgeKinematicsDiffDrive.setTebConfig set_cfg cfg_ nonnull
       ROS_ASSERT_MSG bind set_vertices _vertices0 _vertices1 deref
       s_isfinite Scalar_binary64].
  unfold ROS_ASSERT_MSG.
  pose proof (nh_component_finite conf1 conf2 H1 H2) as Hnh.
  pose proof (dd_component_finite conf1 conf2 H1 H2) as Hdd.
  cbn [vsub coeff0 coeff1 s_sub s_mul s_add s_fabs s_cos s_sin s_zero
       Scalar_binary64] in *.
  rewrite Hnh, Hdd. cbn [andb bind]. eexists. reflexivity.
Qed.
Variable normalize_theta : binary64 -> binary64.
Hypothesis normalize_range : gives_numbers normalize_theta.

(** The chord between two poses whose coordinates are below [2 ^ 500]. *)
Lemma norm_number (conf1 conf2 : VertexPose binary64) :
  pose_within 500 conf1 = true -> pose_within 500 conf2 = true ->
  within 1024 (norm (vsub (position conf2) (position conf1))) = true
  /\ sign_bit (norm (vsub (position conf2) (position conf1))) = false.
Proof.
  unfold pose_within. rewrite !andb_true_iff.
  intros [[Hx1 Hy1] Ht1] [[Hx2 Hy2] Ht2].
  pose proof (SFsub_within 500 500 _ _ Hx2 Hx1 ltac:(lia) ltac:(lia)) as Hdx.
  pose proof (SFsub_within 500 500 _ _ Hy2 Hy1 ltac:(lia) ltac:(lia)) as Hdy.
  change (Z.max 500 500 + 2) with 502 in *.
  pose proof (SFmul_within 502 502 _ _ Hdx Hdx ltac:(lia) ltac:(lia)) as Hxx.
  pose proof (SFmul_within 502 502 _ _ Hdy Hdy ltac:(lia) ltac:(lia)) as Hyy.
  pose proof (SFmul_self_sign 502 _ Hdx ltac:(lia) ltac:(lia)) as Hsx.
  pose proof (SFmul_self_sign 502 _ Hdy ltac:(lia) ltac:(lia)) as Hsy.
  change (502 + 502 + 1) with 1005 in *.
  pose proof (SFadd_within 1005 1005 _ _ Hxx Hyy ltac:(lia) ltac:(lia)) as Hsum.
  pose proof (SFadd_sign 1005 1005 _ _ Hxx Hyy Hsx Hsy) as Hssum.
  unfold norm, vsub.
  cbn [s_sqrt s_add s_sub s_mul coeff0 coeff1 Scalar_binary64].
  exact (SFsqrt_within _ _ Hsum Hssum).
Qed.

Lemma carlike_returns_in_range (raw : Edge binary64)
    (conf1 conf2 : VertexPose binary64) (mtr : binary64) :
  pose_within 500 conf1 = true -> pose_within 500 conf2 = true ->
  within 1022 mtr = true ->
  exists e' : Edge binary64,
    EdgeKinematicsCarlike.computeError normalize_theta
      (carlike_edge raw conf1 conf2 (config mtr))
    = Ok e'.
Proof.
  intros H1 H2 Hmtr. unfold EdgeKinematicsCarlike.computeError.
  cbn [carlike_edge EdgeKinematicsCarlike.setTebConfig set_cfg cfg_ nonnull
       ROS_ASSERT_MSG bind set_vertices _vertices0 _vertices1 deref
       s_isfinite s_eqb s_zero s_fabs config robot min_turning_radius
       Scalar_binary64].
  unfold ROS_ASSERT_MSG.
  pose proof (nh_component_finite conf1 conf2
                (pose_within_weaken 500 1000 _ ltac:(lia) H1)
                (pose_within_weaken 500 1000 _ ltac:(lia) H2)) as Hnh.
  cbn [vsub coeff0 coeff1 s_sub s_mul s_add s_fabs s_cos s_sin
       Scalar_binary64] in *.
  rewrite Hnh.
  destruct (SFeqb (normalize_theta (SFsub 53 1024 (theta conf2) (theta conf1)))
              (S754_zero false)) eqn:Hw.
  - cbn [bind b64_isfinite andb]. eexists. reflexivity.
  - rewrite (b64_checked_div _ _ Hw). cbn [bind].
    assert (Hth : b64_isfinite (SFsub 53 1024 (theta conf2) (theta conf1)) = true).
    { unfold pose_within in H1, H2. rewrite !andb_true_iff in H1, H2.
      apply (within_isfinite (Z.max 500 500 + 2)).
      apply SFsub_within; try tauto; lia. }
    pose proof (normalize_range _ Hth) as Hnum.
    destruct (norm_number conf1 conf2 H1 H2) as [Hn Hsn].
    pose proof (SFdiv_radius_like _ _ Hn Hsn Hnum Hw) as Hr.
    pose proof (penalty_radius_finite _ mtr libm_cos libm_sin Hmtr Hr) as Hpen.
    unfold norm, vsub in Hpen.
    cbn [s_sqrt s_add s_sub s_mul coeff0 coeff1 Scalar_binary64] in Hpen.
    unfold norm, vsub.
    cbn [s_sqrt s_add s_sub s_mul coeff0 coeff1 Scalar_binary64].
    rewrite Hpen. cbn [andb bind]. eexists. reflexivity.
Qed.
End InRange.

(** C8, as amended.  In binary64 arithmetic [computeError] on a bound edge
    between two poses either returns an error vector whose two components
    are finite, or stops at the finiteness assertion: a component that is
    not finite is never returned.  It returns, so the assertion holds,
    whenever [cos] and [sin] give numbers of magnitude below 2 and the
    coordinates and headings of both poses are numbers of magnitude below
    [2 ^ 1000] (differential drive), or below [2 ^ 500] with an angle
    normalisation that gives numbers and a [min_turning_radius] of magnitude
    below [2 ^ 1022] (car-like).  That the poses and [min_turning_radius]
    are finite is not enough, as the two far corners show. *)
Theorem computeError_finite_or_assertion_fault
    (normalize_theta : binary64 -> binary64)
    (raw : Edge binary64) (conf1 conf2 : VertexPose binary64)
    (cfg : TebConfig binary64) :
  match EdgeKinematicsDiffDrive.computeError
          (diffdrive_edge raw conf1 conf2 cfg) with
  | Ok e' => b64_isfinite (coeff0 (_error e')) = true
             /\ b64_isfinite (coeff1 (_error e')) = true
  | Fault f => f = AssertionFailed diffdrive_finite_msg
  end
  /\ match EdgeKinematicsCarlike.computeError normalize_theta
             (carlike_edge raw conf1 conf2 cfg) with
     | Ok e' => b64_isfinite (coeff0 (_error e')) = true
                /\ b64_isfinite (coeff1 (_error e')) = true
     | Fault f => f = AssertionFailed carlike_finite_msg
     end
  /\ (unit_range libm_cos -> unit_range libm_sin ->
      pose_within 1000 conf1 = true -> pose_within 1000 conf2 = true ->
      exists e' : Edge binary64,
        EdgeKinematicsDiffDrive.computeError
          (diffdrive_edge raw conf1 conf2 cfg) = Ok e')
  /\ (unit_range libm_cos -> unit_range libm_sin ->
      gives_numbers normalize_theta ->
      pose_within 500 conf1 = true -> pose_within 500 conf2 = true ->
      within 1022 (min_turning_radius (robot cfg)) = true ->
      exists e' : Edge binary64,
        EdgeKinematicsCarlike.computeError normalize_theta
          (carlike_edge raw conf1 conf2 cfg) = Ok e').
Proof.
  split; [| split; [| split]].
  - unfold EdgeKinematicsDiffDrive.computeError.
    cbn [diffdrive_edge EdgeKinematicsDiffDrive.setTebConfig set_cfg cfg_
         nonnull ROS_ASSERT_MSG bind set_vertices _vertices0 _vertices1 deref
         s_isfinite Scalar_binary64].
    split_on_finiteness.
  - unfold EdgeKinematicsCarlike.computeError.
    cbn [carlike_edge EdgeKinematicsCarlike.setTebConfig set_cfg cfg_
         nonnull ROS_ASSERT_MSG bind set_vertices _vertices0 _vertices1 deref
         s_isfinite s_eqb s_zero s_fabs Scalar_binary64].
    destruct (SFeqb (normalize_theta (s_sub (theta conf2) (theta conf1)))
                (S754_zero false)) eqn:Hw.
    + cbn [bind].
      split_on_finiteness.
    + rewrite (b64_checked_div _ _ Hw). cbn [bind deref].
      split_on_finiteness.
  - intros Hcos Hsin H1 H2.
    exact (diffdrive_returns_in_range Hcos Hsin raw conf1 conf2 cfg H1 H2).
  - intros Hcos Hsin Hnorm H1 H2 Hmtr. destruct cfg as [[mtr]].
    exact (carlike_returns_in_range Hcos Hsin normalize_theta Hnorm raw
             conf1 conf2 mtr H1 H2 Hmtr).
Qed.

(** One unit forward along the heading, with a C library whose [cos] and
    [sin] are exact at 0: both components are +0 and the call returns. *)
Example diffdrive_unit_step_returns (raw : Edge binary64)
    (cfg : TebConfig binary64) :
  libm_cos b64_zero = b64_one ->
  libm_sin b64_zero = b64_zero ->
  EdgeKinematicsDiffDrive.computeError
    (diffdrive_edge raw (pose b64_zero b64_zero b64_zero)
       (pose b64_one b64_zero b64_zero) cfg)
  = Ok (set_error
          (diffdrive_edge raw (pose b64_zero b64_zero b64_zero)
             (pose b64_one b64_zero b64_zero) cfg)
          (Vec2 b64_zero b64_zero)).
Proof.
  intros Hcos Hsin. unfold EdgeKinematicsDiffDrive.computeError.
  cbn [diffdrive_edge EdgeKinematicsDiffDrive.setTebConfig set_cfg cfg_ nonnull
       ROS_ASSERT_MSG bind set_vertices _vertices0 _vertices1 deref
       pose position theta s_cos s_sin Scalar_binary64].
  rewrite Hcos, Hsin. reflexivity.
Qed.
(** Whenever the differential-drive cost returns, its first component is a
    finite number that is not negative: the absolute value clears the sign
    and the assertion has excluded NaN and infinity. *)
Lemma diffdrive_error0_not_negative (raw : Edge binary64)
    (conf1 conf2 : VertexPose binary64) (cfg : TebConfig binary64)
    (e' : Edge binary64) :
  EdgeKinematicsDiffDrive.computeError (diffdrive_edge raw conf1 conf2 cfg)
  = Ok e' ->
  SFleb b64_zero (coeff0 (_error e')) = true.
Proof.
  unfold EdgeKinematicsDiffDrive.computeError.
  cbn [diffdrive_edge EdgeKinematicsDiffDrive.setTebConfig set_cfg cfg_
       nonnull ROS_ASSERT_MSG bind set_vertices _vertices0 _vertices1 deref
       s_isfinite s_fabs Scalar_binary64].
  unfold ROS_ASSERT_MSG.
  match goal with
  | |- context [b64_isfinite (SFabs ?v) && _] =>
      destruct v as [s | s | | s m e]
  end; cbn [SFabs b64_isfinite andb bind]; try discriminate;
    (match goal with
     | |- context [if ?b then _ else _] => destruct b
     end; cbn [bind]; [| discriminate]);
    intros Hrun; injection Hrun as Hrun; subst e'; reflexivity.
Qed.

(** No evaluation of the car-like cost divides by zero in binary64 either:
    [omega_t == 0] is false for NaN as well, and then [fabs(omega_t)] is
    not zero. *)
Lemma carlike_never_divides_by_zero_b64
    (normalize_theta : binary64 -> binary64) (e : Edge binary64) :
  EdgeKinematicsCarlike.computeError normalize_theta e
  <> Fault DivisionByZero.
Proof.
  unfold EdgeKinematicsCarlike.computeError, ROS_ASSERT_MSG.
  destruct (nonnull (cfg_ e)); cbn [bind]; [| discriminate].
  destruct (_vertices0 e) as [| conf1 |]; cbn [deref bind]; try discriminate.
  destruct (_vertices1 e) as [| conf2 |]; cbn [deref bind]; try discriminate.
  cbn [s_eqb s_zero s_fabs Scalar_binary64].
  destruct (SFeqb (normalize_theta (s_sub (theta conf2) (theta conf1)))
              (S754_zero false)) eqn:Hw.
  - cbn [bind]. match goal with
    | |- context [if ?b then _ else _] => destruct b
    end; discriminate.
  - rewrite (b64_checked_div _ _ Hw). cbn [bind].
    destruct (cfg_ e) as [| c |]; cbn [deref bind]; try discriminate.
    match goal with
    | |- context [if ?b then _ else _] => destruct b
    end; discriminate.
Qed.

(** The round trip of C7 on numbers: an edge with measurement 0 and weight
    1000 comes back with measurement 1000 and weight 0. *)
Example write_then_read_1000 :
  EdgeKinematicsDiffDrive.read
    (EdgeKinematicsDiffDrive.EdgeKinematicsDiffDrive zeroed)
    (reopen
       (fst (EdgeKinematicsDiffDrive.write
               (set_information00
                  (EdgeKinematicsDiffDrive.EdgeKinematicsDiffDrive zeroed)
                  (b64_of_Z 1000))
               empty_ostream)))
  = (set_information00
       (set_measurement
          (EdgeKinematicsDiffDrive.EdgeKinematicsDiffDrive zeroed)
          (b64_of_Z 1000))
       (b64_of_Z 0),
     {| is_buf := text "Error NH-Constraint: "
                  ++ Num (b64_of_Z 0) :: text ", Error PosDriveDir: "
                  ++ [Num (b64_of_Z 0)];
        is_failbit := true |},
     true).
Proof. reflexivity. Qed.

End Binary64.

(** The two edges at concrete poses, one unit apart along a common heading
    of 0, with stand-ins for the C library that are exact at 0
    ([cos 0 = 1], [sin 0 = 0]), a normalised heading difference of 1 and a
    minimum turning radius of 1: both calls return. *)
Lemma computeError_finite_or_assertion_fault_witness :
  (exists e' : Edge binary64,
     EdgeKinematicsDiffDrive.computeError
       (ST := libm_at_zero)
       (diffdrive_edge
          (ST := libm_at_zero)
          (zeroed (ST := libm_at_zero))
          (Pose (Vec2 b64_zero b64_zero) b64_zero)
          (Pose (Vec2 b64_one b64_zero) b64_zero)
          {| robot := {| min_turning_radius := b64_one |} |}) = Ok e')
  /\ (exists e' : Edge binary64,
        EdgeKinematicsCarlike.computeError
          (ST := libm_at_zero)
          (fun _ => b64_one)
          (carlike_edge
             (ST := libm_at_zero)
             (zeroed (ST := libm_at_zero))
          (Pose (Vec2 b64_zero b64_zero) b64_zero)
             (Pose (Vec2 b64_one b64_zero) b64_zero)
             {| robot := {| min_turning_radius := b64_one |} |}) = Ok e').
Proof.
  destruct (computeError_finite_or_assertion_fault
              (fun _ => b64_one) (fun _ => b64_zero) (fun _ => b64_one)
              (zeroed (ST := libm_at_zero))
              (Pose (Vec2 b64_zero b64_zero) b64_zero)
              (Pose (Vec2 b64_one b64_zero) b64_zero)
              {| robot := {| min_turning_radius := b64_one |} |})
    as [_ [_ [Hdd Hcl]]].
  split.
  - apply Hdd; first [reflexivity | intros x _; reflexivity].
  - apply Hcl; first [reflexivity | intros x _; reflexivity].
Defined.

(** C8, the counterexample.  The two far corners are finite poses (their
    coordinates and headings are binary64 numbers), and between them
    [computeError] of either edge breaks its finiteness assertion, whatever [cos], [sin] and the angle normalisation return and
    whatever the configuration holds: both coordinates of the position
    difference overflow to +infinity. *)
Lemma finite_poses_break_finiteness_assertion :
  pose_within 1024 far_corner_lo = true
  /\ pose_within 1024 far_corner_hi = true
  /\ (forall (libm_cos libm_sin : binary64 -> binary64)
             (raw : Edge binary64) (cfg : TebConfig binary64),
        EdgeKinematicsDiffDrive.computeError
          (ST := Scalar_binary64 libm_cos libm_sin)
          (diffdrive_edge (ST := Scalar_binary64 libm_cos libm_sin)
             raw far_corner_lo far_corner_hi cfg)
        = Fault (AssertionFailed diffdrive_finite_msg))
  /\ (forall (libm_cos libm_sin normalize_theta : binary64 -> binary64)
             (raw : Edge binary64) (cfg : TebConfig binary64),
        EdgeKinematicsCarlike.computeError
          (ST := Scalar_binary64 libm_cos libm_sin) normalize_theta
          (carlike_edge (ST := Scalar_binary64 libm_cos libm_sin)
             raw far_corner_lo far_corner_hi cfg)
        = Fault (AssertionFailed carlike_finite_msg)).
Proof.
  split; [reflexivity |]. split; [reflexivity |]. split.
  - intros. apply diffdrive_far_corners_fault.
  - intros. apply carlike_far_corners_fault.
Qed.

(** * Further properties of the cost functions in exact arithmetic *)

Section ExactMore.
Local Open Scope R_scope.

(** ** Motion along an arc *)

Lemma nh_term_on_arc (x y mid delta d : R) :
  nh_term x y (mid - delta) (x + d * cos mid) (y + d * sin mid) (mid + delta)
  = 0.
Proof.
  unfold nh_term. rewrite cos_minus, cos_plus, sin_minus, sin_plus. ring.
Qed.

Lemma drive_dir_on_arc (x y mid delta d : R) :
  drive_dir x y (mid - delta) (x + d * cos mid) (y + d * sin mid)
  = d * cos delta.
Proof.
  unfold drive_dir. rewrite cos_minus, sin_minus.
  pose proof (sin2_cos2 mid) as H. unfold Rsqr in H.
  transitivity (d * cos delta * (sin mid * sin mid + cos mid * cos mid)).
  - ring.
  - rewrite H. ring.
Qed.

(** X1.  When the displacement between the two poses points along the
    bisector [mid] of their headings [mid - delta] and [mid + delta] (the
    two poses lie on a common arc, or on a line when [delta = 0]), the first
    component of the differential-drive error is exactly 0, whatever the
    step length [d]; the second is 0 when [d * cos delta >= 0] and
    [- d * cos delta] otherwise. *)
Theorem diffdrive_arc_motion_is_free
    (raw : Edge R) (cfg : TebConfig R) (x y mid delta d : R) :
  exists e' : Edge R,
    EdgeKinematicsDiffDrive.computeError
      (diffdrive_edge raw (pose x y (mid - delta))
         (pose (x + d * cos mid) (y + d * sin mid) (mid + delta)) cfg) = Ok e'
    /\ coeff0 (_error e') = 0
    /\ (0 <= d * cos delta -> coeff1 (_error e') = 0)
    /\ (d * cos delta < 0 -> coeff1 (_error e') = - (d * cos delta)).
Proof.
  eexists. split; [apply diffdrive_computeError_exact |].
  cbn [_error set_error coeff0 coeff1].
  rewrite nh_term_on_arc, drive_dir_on_arc, Rabs_R0.
  split; [reflexivity |]. split.
  - intros Hfwd. apply penalty_satisfied. lra.
  - intros Hback. rewrite penalty_violated by lra. lra.
Qed.

(** ** Invariance *)

Lemma nh_term_swap x1 y1 th1 x2 y2 th2 :
  nh_term x2 y2 th2 x1 y1 th1 = - nh_term x1 y1 th1 x2 y2 th2.
Proof. unfold nh_term. ring. Qed.

Lemma nh_term_move a b phi x1 y1 th1 x2 y2 th2 :
  nh_term (x1 * cos phi - y1 * sin phi + a) (x1 * sin phi + y1 * cos phi + b)
          (th1 + phi)
          (x2 * cos phi - y2 * sin phi + a) (x2 * sin phi + y2 * cos phi + b)
          (th2 + phi)
  = nh_term x1 y1 th1 x2 y2 th2.
Proof.
  unfold nh_term. rewrite !cos_plus, !sin_plus.
  pose proof (sin2_cos2 phi) as H. unfold Rsqr in H.
  transitivity (((cos th1 + cos th2) * (y2 - y1) - (sin th1 + sin th2) * (x2 - x1))
                * (sin phi * sin phi + cos phi * cos phi)).
  - ring.
  - rewrite H. ring.
Qed.

Lemma drive_dir_move a b phi x1 y1 th1 x2 y2 :
  drive_dir (x1 * cos phi - y1 * sin phi + a) (x1 * sin phi + y1 * cos phi + b)
            (th1 + phi)
            (x2 * cos phi - y2 * sin phi + a) (x2 * sin phi + y2 * cos phi + b)
  = drive_dir x1 y1 th1 x2 y2.
Proof.
  unfold drive_dir. rewrite !cos_plus, !sin_plus.
  pose proof (sin2_cos2 phi) as H. unfold Rsqr in H.
  transitivity (((x2 - x1) * cos th1 + (y2 - y1) * sin th1)
                * (sin phi * sin phi + cos phi * cos phi)).
  - ring.
  - rewrite H. ring.
Qed.

Lemma chord_move a b phi x1 y1 x2 y2 :
  chord (x1 * cos phi - y1 * sin phi + a) (x1 * sin phi + y1 * cos phi + b)
        (x2 * cos phi - y2 * sin phi + a) (x2 * sin phi + y2 * cos phi + b)
  = chord x1 y1 x2 y2.
Proof.
  unfold chord. f_equal.
  pose proof (sin2_cos2 phi) as H. unfold Rsqr in H.
  transitivity (((x2 - x1) * (x2 - x1) + (y2 - y1) * (y2 - y1))
                * (sin phi * sin phi + cos phi * cos phi)).
  - ring.
  - rewrite H. ring.
Qed.

(** X2.  The differential-drive error vector does not depend on the frame
    in which the two poses are expressed: rotating both poses by the same
    angle about the origin and translating both by the same vector leaves
    both components unchanged. *)
Theorem diffdrive_error_rigid_motion
    (raw : Edge R) (cfg : TebConfig R) (a b phi : R)
    (conf1 conf2 : VertexPose R) :
  exists e1 e2 : Edge R,
    EdgeKinematicsDiffDrive.computeError (diffdrive_edge raw conf1 conf2 cfg)
    = Ok e1
    /\ EdgeKinematicsDiffDrive.computeError
         (diffdrive_edge raw (move a b phi conf1) (move a b phi conf2) cfg)
       = Ok e2
    /\ _error e2 = _error e1.
Proof.
  destruct conf1 as [[x1 y1] th1], conf2 as [[x2 y2] th2].
  do 2 eexists. split; [apply diffdrive_computeError_exact |].
  split; [apply diffdrive_computeError_exact |].
  cbn [_error set_error move position theta coeff0 coeff1].
  rewrite nh_term_move, drive_dir_move. reflexivity.
Qed.

(** X3.  The first component of the differential-drive error is symmetric
    in the two poses: the edge from [conf2] to [conf1] has the same
    non-holonomic residual as the edge from [conf1] to [conf2]. *)
Theorem diffdrive_nonholonomic_symmetric
    (raw : Edge R) (cfg : TebConfig R) (conf1 conf2 : VertexPose R) :
  exists e1 e2 : Edge R,
    EdgeKinematicsDiffDrive.computeError (diffdrive_edge raw conf1 conf2 cfg)
    = Ok e1
    /\ EdgeKinematicsDiffDrive.computeError (diffdrive_edge raw conf2 conf1 cfg)
       = Ok e2
    /\ coeff0 (_error e2) = coeff0 (_error e1).
Proof.
  destruct conf1 as [[x1 y1] th1], conf2 as [[x2 y2] th2].
  do 2 eexists. split; [apply diffdrive_computeError_exact |].
  split; [apply diffdrive_computeError_exact |].
  cbn [_error set_error coeff0]. rewrite nh_term_swap. apply Rabs_Ropp.
Qed.

Lemma cos_period_Z (x : R) (k : Z) : cos (x + 2 * IZR k * PI) = cos x.
Proof.
  destruct k as [| p | p].
  - f_equal. ring.
  - rewrite <- (positive_nat_Z p), <- INR_IZR_INZ. apply cos_period.
  - rewrite <- (cos_period (x + 2 * IZR (Z.neg p) * PI) (Pos.to_nat p)).
    f_equal. rewrite INR_IZR_INZ, (positive_nat_Z p).
    change (Z.neg p) with (- Z.pos p)%Z. rewrite opp_IZR. ring.
Qed.

Lemma sin_period_Z (x : R) (k : Z) : sin (x + 2 * IZR k * PI) = sin x.
Proof.
  destruct k as [| p | p].
  - f_equal. ring.
  - rewrite <- (positive_nat_Z p), <- INR_IZR_INZ. apply sin_period.
  - rewrite <- (sin_period (x + 2 * IZR (Z.neg p) * PI) (Pos.to_nat p)).
    f_equal. rewrite INR_IZR_INZ, (positive_nat_Z p).
    change (Z.neg p) with (- Z.pos p)%Z. rewrite opp_IZR. ring.
Qed.

(** X4.  The differential-drive edge reads the two headings through [cos]
    and [sin] only, so headings need not be normalised: adding whole turns
    [2 k1 PI] and [2 k2 PI] to the two headings leaves the error vector
    unchanged. *)
Theorem diffdrive_error_heading_period
    (raw : Edge R) (cfg : TebConfig R) (x1 y1 th1 x2 y2 th2 : R) (k1 k2 : Z) :
  exists e1 e2 : Edge R,
    EdgeKinematicsDiffDrive.computeError
      (diffdrive_edge raw (pose x1 y1 th1) (pose x2 y2 th2) cfg) = Ok e1
    /\ EdgeKinematicsDiffDrive.computeError
         (diffdrive_edge raw (pose x1 y1 (th1 + 2 * IZR k1 * PI))
            (pose x2 y2 (th2 + 2 * IZR k2 * PI)) cfg) = Ok e2
    /\ _error e2 = _error e1.
Proof.
  do 2 eexists. split; [apply diffdrive_computeError_exact |].
  split; [apply diffdrive_computeError_exact |].
  cbn [_error set_error]. unfold nh_term, drive_dir.
  rewrite !cos_period_Z, !sin_period_Z. reflexivity.
Qed.

(** ** Bounds *)

Lemma unit_headings_sum (th1 th2 : R) :
  (cos th1 + cos th2) * (cos th1 + cos th2)
  + (sin th1 + sin th2) * (sin th1 + sin th2) <= 4.
Proof.
  pose proof (sin2_cos2 th1) as H1. pose proof (sin2_cos2 th2) as H2.
  unfold Rsqr in H1, H2.
  pose proof (Rle_0_sqr (cos th1 - cos th2)) as H3.
  pose proof (Rle_0_sqr (sin th1 - sin th2)) as H4.
  unfold Rsqr in H3, H4. nra.
Qed.

Lemma Rabs_le_sqrt (u s : R) : u * u <= s -> Rabs u <= sqrt s.
Proof.
  intros Hle. rewrite <- sqrt_Rsqr_abs. apply sqrt_le_1_alt. exact Hle.
Qed.

Lemma nh_term_bound x1 y1 th1 x2 y2 th2 :
  Rabs (nh_term x1 y1 th1 x2 y2 th2) <= 2 * chord x1 y1 x2 y2.
Proof.
  unfold chord.
  set (dx := x2 - x1). set (dy := y2 - y1).
  replace (2 * sqrt (dx * dx + dy * dy)) with (sqrt (4 * (dx * dx + dy * dy))).
  - apply Rabs_le_sqrt. unfold nh_term. fold dx dy.
    pose proof (unit_headings_sum th1 th2) as Hs.
    set (A := cos th1 + cos th2) in *. set (B := sin th1 + sin th2) in *.
    pose proof (Rle_0_sqr (A * dx + B * dy)) as Hc. unfold Rsqr in Hc.
    assert (Hcs : (A * dy - B * dx) * (A * dy - B * dx)
                  <= (A * A + B * B) * (dx * dx + dy * dy)) by nra.
    assert (Hd : 0 <= dx * dx + dy * dy) by nra.
    nra.
  - rewrite sqrt_mult by nra.
    replace 4 with (Rsqr 2) by (unfold Rsqr; ring).
    rewrite sqrt_Rsqr by lra. reflexivity.
Qed.

Lemma drive_dir_bound x1 y1 th1 x2 y2 :
  Rabs (drive_dir x1 y1 th1 x2 y2) <= chord x1 y1 x2 y2.
Proof.
  unfold chord. apply Rabs_le_sqrt. unfold drive_dir.
  set (dx := x2 - x1). set (dy := y2 - y1).
  pose proof (sin2_cos2 th1) as H1. unfold Rsqr in H1.
  pose proof (Rle_0_sqr (dx * sin th1 - dy * cos th1)) as Hc. unfold Rsqr in Hc.
  nra.
Qed.

Lemma penalty_zero_bound (v : R) :
  0 <= penaltyBoundFromBelow v 0 0 <= Rabs v.
Proof.
  destruct (Rle_lt_dec 0 v) as [Hv | Hv].
  - rewrite penalty_satisfied by lra. split; [lra | apply Rabs_pos].
  - rewrite penalty_violated by lra. rewrite Rabs_left by exact Hv. lra.
Qed.

(** X5.  Both components of the differential-drive error are bounded by
    the distance between the two positions: the first by twice that
    distance, the second, which is never negative, by the distance
    itself. *)
Theorem diffdrive_error_bounded_by_step
    (raw : Edge R) (cfg : TebConfig R) (x1 y1 th1 x2 y2 th2 : R) :
  exists e' : Edge R,
    EdgeKinematicsDiffDrive.computeError
      (diffdrive_edge raw (pose x1 y1 th1) (pose x2 y2 th2) cfg) = Ok e'
    /\ coeff0 (_error e')
       <= 2 * sqrt ((x2 - x1) * (x2 - x1) + (y2 - y1) * (y2 - y1))
    /\ 0 <= coeff1 (_error e')
    /\ coeff1 (_error e')
       <= sqrt ((x2 - x1) * (x2 - x1) + (y2 - y1) * (y2 - y1)).
Proof.
  eexists. split; [apply diffdrive_computeError_exact |].
  cbn [_error set_error coeff0 coeff1].
  split; [apply nh_term_bound |].
  pose proof (penalty_zero_bound (drive_dir x1 y1 th1 x2 y2)) as [Hlo Hhi].
  split; [exact Hlo |].
  eapply Rle_trans; [exact Hhi | apply drive_dir_bound].
Qed.

(** ** The car-like cost *)

Section CarlikeMore.
Variable normalize_theta : R -> R.

Lemma carlike_computeError_exact raw cfg x1 y1 th1 x2 y2 th2 :
  EdgeKinematicsCarlike.computeError normalize_theta
    (carlike_edge raw (pose x1 y1 th1) (pose x2 y2 th2) cfg)
  = Ok (set_error (carlike_edge raw (pose x1 y1 th1) (pose x2 y2 th2) cfg)
          (Vec2 (Rabs (nh_term x1 y1 th1 x2 y2 th2))
             (if Reqb (normalize_theta (th2 - th1)) 0 then 0
              else penaltyBoundFromBelow
                     (chord x1 y1 x2 y2 / Rabs (normalize_theta (th2 - th1)))
                     (min_turning_radius (robot cfg)) 0))).
Proof.
  destruct cfg as [[mtr]].
  destruct (Req_dec_T (normalize_theta (th2 - th1)) 0) as [Hw | Hw].
  - rewrite (Reqb_true _ _ Hw).
    apply (carlike_computeError_straight normalize_theta). exact Hw.
  - rewrite (Reqb_false _ _ Hw).
    apply (carlike_computeError_turning normalize_theta raw mtr). exact Hw.
Qed.

(** X6.  The first component of the car-like error is the non-holonomic
    residual of the differential-drive edge: on the same two poses both
    classes compute
    |(cos th1 + cos th2) * (y2 - y1) - (sin th1 + sin th2) * (x2 - x1)|,
    whatever the configuration and the angle normalisation. *)
Theorem carlike_nonholonomic_as_diffdrive
    (raw raw' : Edge R) (cfg cfg' : TebConfig R) (conf1 conf2 : VertexPose R) :
  exists e1 e2 : Edge R,
    EdgeKinematicsCarlike.computeError normalize_theta
      (carlike_edge raw conf1 conf2 cfg) = Ok e1
    /\ EdgeKinematicsDiffDrive.computeError
         (diffdrive_edge raw' conf1 conf2 cfg') = Ok e2
    /\ coeff0 (_error e1) = coeff0 (_error e2)
    /\ coeff0 (_error e1)
       = Rabs ((cos (theta conf1) + cos (theta conf2))
               * (coeff1 (position conf2) - coeff1 (position conf1))
               - (sin (theta conf1) + sin (theta conf2))
                 * (coeff0 (position conf2) - coeff0 (position conf1))).
Proof.
  destruct conf1 as [[x1 y1] th1], conf2 as [[x2 y2] th2].
  do 2 eexists. split; [apply carlike_computeError_exact |].
  split; [apply diffdrive_computeError_exact |].
  split; reflexivity.
Qed.

(** X7.  The car-like error vector does not depend on the frame either:
    rotating both poses by the same angle about the origin and translating
    both by the same vector leaves both components unchanged, for every
    angle normalisation (which sees the same heading difference). *)
Theorem carlike_error_rigid_motion
    (raw : Edge R) (cfg : TebConfig R) (a b phi : R)
    (conf1 conf2 : VertexPose R) :
  exists e1 e2 : Edge R,
    EdgeKinematicsCarlike.computeError normalize_theta
      (carlike_edge raw conf1 conf2 cfg) = Ok e1
    /\ EdgeKinematicsCarlike.computeError normalize_theta
         (carlike_edge raw (move a b phi conf1) (move a b phi conf2) cfg)
       = Ok e2
    /\ _error e2 = _error e1.
Proof.
  destruct conf1 as [[x1 y1] th1], conf2 as [[x2 y2] th2].
  do 2 eexists. split; [apply carlike_computeError_exact |].
  split; [apply carlike_computeError_exact |].
  cbn [_error set_error move position theta coeff0 coeff1].
  rewrite nh_term_move, chord_move.
  replace (th2 + phi - (th1 + phi)) with (th2 - th1) by ring.
  reflexivity.
Qed.

(** X8.  With a minimum turning radius that is not negative, the second
    component of the car-like error lies between 0 and the minimum turning
    radius, for every pair of poses and every angle normalisation. *)
Theorem carlike_turning_component_bounded
    (raw : Edge R) (cfg : TebConfig R) (conf1 conf2 : VertexPose R) :
  0 <= min_turning_radius (robot cfg) ->
  exists e' : Edge R,
    EdgeKinematicsCarlike.computeError normalize_theta
      (carlike_edge raw conf1 conf2 cfg) = Ok e'
    /\ 0 <= coeff1 (_error e') <= min_turning_radius (robot cfg).
Proof.
  intros Hmtr. destruct conf1 as [[x1 y1] th1], conf2 as [[x2 y2] th2].
  eexists. split; [apply carlike_computeError_exact |].
  cbn [_error set_error coeff1].
  destruct (Reqb (normalize_theta (th2 - th1)) 0) eqn:Hw; [lra |].
  assert (Hnz : normalize_theta (th2 - th1) <> 0).
  { intros Hz. rewrite (Reqb_true _ _ Hz) in Hw. discriminate. }
  assert (Hr : 0 <= chord x1 y1 x2 y2 / Rabs (normalize_theta (th2 - th1))).
  { apply Rmult_le_pos; [apply sqrt_pos |].
    apply Rlt_le, Rinv_0_lt_compat, Rabs_pos_lt. exact Hnz. }
  set (r := chord x1 y1 x2 y2 / Rabs (normalize_theta (th2 - th1))) in *.
  destruct (Rle_lt_dec (min_turning_radius (robot cfg) + 0) r) as [Hle | Hlt].
  - rewrite penalty_satisfied by exact Hle. lra.
  - rewrite penalty_violated by exact Hlt. lra.
Qed.

End CarlikeMore.

(** A turn of one radian over a chord of length 1, with a minimum turning
    radius of 2. *)
Lemma carlike_turning_component_bounded_witness :
  0 <= min_turning_radius (robot (config 2))
  /\ exists e' : Edge R,
       EdgeKinematicsCarlike.computeError wrap_angle
         (carlike_edge zeroed (pose 0 0 0) (pose 1 0 1) (config 2)) = Ok e'
       /\ 0 <= coeff1 (_error e') <= min_turning_radius (robot (config 2)).
Proof.
  assert (Hmtr : 0 <= min_turning_radius (robot (config 2))) by (cbn; lra).
  split; [exact Hmtr |].
  exact (carlike_turning_component_bounded wrap_angle zeroed (config 2)
           (pose 0 0 0) (pose 1 0 1) Hmtr).
Defined.

(** ** The structure of the analytic Jacobian *)

(** X9.  In the Jacobian blocks that [linearizeOplus] stores, the position
    columns of the second pose are the opposite of those of the first:
    the entries for x and y of [_jacobianOplusXj] are the negated entries
    of [_jacobianOplusXi], in both rows, and the drive-direction row never
    depends on the second heading (entry (1,2) of [_jacobianOplusXj] is
    0). *)
Theorem diffdrive_jacobian_position_blocks_opposite
    (raw : Edge R) (cfg : TebConfig R) (conf1 conf2 : VertexPose R) :
  exists e' : Edge R,
    EdgeKinematicsDiffDrive.linearizeOplus (diffdrive_edge raw conf1 conf2 cfg)
    = Ok e'
    /\ m00 (_jacobianOplusXj e') = - m00 (_jacobianOplusXi e')
    /\ m01 (_jacobianOplusXj e') = - m01 (_jacobianOplusXi e')
    /\ m10 (_jacobianOplusXj e') = - m10 (_jacobianOplusXi e')
    /\ m11 (_jacobianOplusXj e') = - m11 (_jacobianOplusXi e')
    /\ m12 (_jacobianOplusXj e') = 0.
Proof.
  eexists. split; [reflexivity |].
  cbn [_jacobianOplusXi _jacobianOplusXj set_jacobians m00 m01 m10 m11 m12].
  cbn [s_add s_sub s_mul s_opp s_zero Scalar_R].
  repeat split; ring.
Qed.

Lemma sign_zero : sign (T := R) 0 = 0.
Proof.
  unfold sign. cbn. rewrite !Rltb_false by lra. reflexivity.
Qed.

(** X10.  A constraint that is met contributes a zero row to both Jacobian
    blocks: when the displacement does not point backward (projection on
    the first heading >= 0) the drive-direction row is 0, and when the
    signed non-holonomic term is exactly 0 the non-holonomic row is 0
    ([g2o::sign] gives 0 there). *)
Theorem diffdrive_jacobian_inactive_rows
    (raw : Edge R) (cfg : TebConfig R) (x1 y1 th1 x2 y2 th2 : R) :
  exists e' : Edge R,
    EdgeKinematicsDiffDrive.linearizeOplus
      (diffdrive_edge raw (pose x1 y1 th1) (pose x2 y2 th2) cfg) = Ok e'
    /\ (0 <= (x2 - x1) * cos th1 + (y2 - y1) * sin th1 ->
        m10 (_jacobianOplusXi e') = 0 /\ m11 (_jacobianOplusXi e') = 0
        /\ m12 (_jacobianOplusXi e') = 0
        /\ m10 (_jacobianOplusXj e') = 0 /\ m11 (_jacobianOplusXj e') = 0
        /\ m12 (_jacobianOplusXj e') = 0)
    /\ ((cos th1 + cos th2) * (y2 - y1) - (sin th1 + sin th2) * (x2 - x1) = 0 ->
        m00 (_jacobianOplusXi e') = 0 /\ m01 (_jacobianOplusXi e') = 0
        /\ m02 (_jacobianOplusXi e') = 0
        /\ m00 (_jacobianOplusXj e') = 0 /\ m01 (_jacobianOplusXj e') = 0
        /\ m02 (_jacobianOplusXj e') = 0).
Proof.
  eexists. split; [reflexivity |].
  cbn [_jacobianOplusXi _jacobianOplusXj set_jacobians m00 m01 m02 m10 m11 m12].
  cbn [diffdrive_edge EdgeKinematicsDiffDrive.setTebConfig set_cfg set_vertices
       _vertices0 _vertices1 pose position theta coeff0 coeff1 vsub
       s_add s_sub s_mul s_opp s_cos s_sin s_zero Scalar_R].
  split.
  - intros Hfwd. unfold penaltyBoundFromBelowDerivative. cbn.
    rewrite Rleb_true by lra. repeat split; ring.
  - intros Hnh. rewrite Hnh, sign_zero. repeat split; ring.
Qed.

End ExactMore.

(** * Properties of the member functions in every arithmetic *)

Section Members.
Context {T : Type} {ST : Scalar T}.

(** X11.  The cost functions read the two vertices and [cfg_] and nothing
    else: two edges that agree on these return the same error vector, or
    fail with the same fault, whatever their measurement, information
    matrix, stored error and Jacobian blocks hold. *)
Theorem computeError_reads_vertices_and_cfg_only (e1 e2 : Edge T) :
  _vertices0 e1 = _vertices0 e2 ->
  _vertices1 e1 = _vertices1 e2 ->
  cfg_ e1 = cfg_ e2 ->
  res_map _error (EdgeKinematicsDiffDrive.computeError e1)
  = res_map _error (EdgeKinematicsDiffDrive.computeError e2)
  /\ forall normalize_theta : T -> T,
       res_map _error (EdgeKinematicsCarlike.computeError normalize_theta e1)
       = res_map _error (EdgeKinematicsCarlike.computeError normalize_theta e2).
Proof.
  intros H0 H1 Hc.
  unfold EdgeKinematicsDiffDrive.computeError,
    EdgeKinematicsCarlike.computeError.
  rewrite H0, H1, Hc. clear H0 H1 Hc.
  split; [| intros normalize_theta]; open_edge e2; settle_edge.
Qed.

(** X12.  [getError] recomputes: calling it again on the state it left
    returns the same vector and leaves the same state, and a call that
    fails fails again in the same way; the vector it returns never depends
    on what [_error] held before. *)
Theorem getError_repeatable (e : Edge T) :
  (r <- EdgeKinematicsDiffDrive.getError e ;;
   EdgeKinematicsDiffDrive.getError (fst r))
  = EdgeKinematicsDiffDrive.getError e
  /\ forall normalize_theta : T -> T,
       (r <- EdgeKinematicsCarlike.getError normalize_theta e ;;
        EdgeKinematicsCarlike.getError normalize_theta (fst r))
       = EdgeKinematicsCarlike.getError normalize_theta e.
Proof.
  unfold EdgeKinematicsDiffDrive.getError, EdgeKinematicsCarlike.getError,
    EdgeKinematicsDiffDrive.computeError, EdgeKinematicsCarlike.computeError.
  split; [| intros normalize_theta]; open_edge e; settle_edge.
Qed.

(** X13.  On the differential-drive edge the error and the Jacobian can be
    evaluated in either order: [computeError] followed by [linearizeOplus]
    leaves the same state, or fails with the same fault, as
    [linearizeOplus] followed by [computeError]. *)
Theorem computeError_linearizeOplus_commute (e : Edge T) :
  (e1 <- EdgeKinematicsDiffDrive.computeError e ;;
   EdgeKinematicsDiffDrive.linearizeOplus e1)
  = (e2 <- EdgeKinematicsDiffDrive.linearizeOplus e ;;
     EdgeKinematicsDiffDrive.computeError e2).
Proof.
  unfold EdgeKinematicsDiffDrive.computeError,
    EdgeKinematicsDiffDrive.linearizeOplus.
  open_edge e; settle_edge.
Qed.

(** X14.  After [setTebConfig] the assertion on [cfg_] cannot break,
    whatever the storage of the edge held before: neither [computeError]
    nor [linearizeOplus] fails with the message that asks for
    [setTebConfig]. *)
Theorem setTebConfig_discharges_assertion (e : Edge T) (cfg : TebConfig T) :
  EdgeKinematicsDiffDrive.computeError
    (EdgeKinematicsDiffDrive.setTebConfig e cfg)
  <> Fault (AssertionFailed diffdrive_cfg_msg)
  /\ EdgeKinematicsDiffDrive.linearizeOplus
       (EdgeKinematicsDiffDrive.setTebConfig e cfg)
     <> Fault (AssertionFailed diffdrive_cfg_msg)
  /\ forall normalize_theta : T -> T,
       EdgeKinematicsCarlike.computeError normalize_theta
         (EdgeKinematicsCarlike.setTebConfig e cfg)
       <> Fault (AssertionFailed carlike_cfg_msg).
Proof.
  unfold EdgeKinematicsDiffDrive.computeError,
    EdgeKinematicsDiffDrive.linearizeOplus,
    EdgeKinematicsCarlike.computeError,
    EdgeKinematicsDiffDrive.setTebConfig, EdgeKinematicsCarlike.setTebConfig,
    ROS_ASSERT_MSG.
  destruct e as [v0 v1 m inf err Ji Jj c].
  cbn [cfg_ _vertices0 _vertices1 set_cfg nonnull bind].
  split; [| split; [| intros normalize_theta]];
    (destruct v0 as [| conf1 |]; cbn [deref bind]; try discriminate);
    (destruct v1 as [| conf2 |]; cbn [deref bind]; try discriminate);
    settle_edge.
Qed.

(** X15.  The differential-drive edge tests [cfg_] and never reads the
    configuration behind it: its error vector and its Jacobian blocks are
    the same whichever configuration is bound. *)
Theorem diffdrive_ignores_config_contents
    (e : Edge T) (cfg cfg' : TebConfig T) :
  res_map _error
    (EdgeKinematicsDiffDrive.computeError
       (EdgeKinematicsDiffDrive.setTebConfig e cfg))
  = res_map _error
      (EdgeKinematicsDiffDrive.computeError
         (EdgeKinematicsDiffDrive.setTebConfig e cfg'))
  /\ res_map (fun e' => (_jacobianOplusXi e', _jacobianOplusXj e'))
       (EdgeKinematicsDiffDrive.linearizeOplus
          (EdgeKinematicsDiffDrive.setTebConfig e cfg))
     = res_map (fun e' => (_jacobianOplusXi e', _jacobianOplusXj e'))
         (EdgeKinematicsDiffDrive.linearizeOplus
            (EdgeKinematicsDiffDrive.setTebConfig e cfg')).
Proof.
  unfold EdgeKinematicsDiffDrive.computeError,
    EdgeKinematicsDiffDrive.linearizeOplus,
    EdgeKinematicsDiffDrive.setTebConfig, ROS_ASSERT_MSG.
  destruct e as [v0 v1 m inf err Ji Jj c].
  cbn [cfg_ _vertices0 _vertices1 set_cfg nonnull bind].
  split;
    (destruct v0 as [| conf1 |]; cbn [deref bind res_map]; try reflexivity);
    (destruct v1 as [| conf2 |]; cbn [deref bind res_map]; try reflexivity).
  settle_edge.
Qed.

(** X16.  The constructors leave both vertex pointers null, and the
    evaluations test [cfg_] only: on an edge that was constructed and bound
    to a configuration but not attached to its two poses, [computeError] and
    [linearizeOplus] dereference a null pointer. *)
Theorem unattached_edge_cannot_be_evaluated
    (raw : Edge T) (cfg : TebConfig T) :
  EdgeKinematicsDiffDrive.computeError
    (EdgeKinematicsDiffDrive.setTebConfig
       (EdgeKinematicsDiffDrive.EdgeKinematicsDiffDrive raw) cfg)
  = Fault InvalidPointer
  /\ EdgeKinematicsDiffDrive.linearizeOplus
       (EdgeKinematicsDiffDrive.setTebConfig
          (EdgeKinematicsDiffDrive.EdgeKinematicsDiffDrive raw) cfg)
     = Fault InvalidPointer
  /\ forall normalize_theta : T -> T,
       EdgeKinematicsCarlike.computeError normalize_theta
         (EdgeKinematicsCarlike.setTebConfig
            (EdgeKinematicsCarlike.EdgeKinematicsCarlike raw) cfg)
       = Fault InvalidPointer.
Proof. repeat split. Qed.

End Members.

(** A bound edge between two poses and the same edge after its measurement
    was overwritten. *)
Lemma computeError_reads_vertices_and_cfg_only_witness :
  res_map _error
    (EdgeKinematicsDiffDrive.computeError
       (diffdrive_edge zeroed (pose 0 0 0) (pose 1 1 0) (config 1)))%R
  = res_map _error
      (EdgeKinematicsDiffDrive.computeError
         (set_measurement
            (diffdrive_edge zeroed (pose 0 0 0) (pose 1 1 0) (config 1)) 5))%R
  /\ forall normalize_theta : R -> R,
       res_map _error
         (EdgeKinematicsCarlike.computeError normalize_theta
            (diffdrive_edge zeroed (pose 0 0 0) (pose 1 1 0) (config 1)))%R
       = res_map _error
           (EdgeKinematicsCarlike.computeError normalize_theta
              (set_measurement
                 (diffdrive_edge zeroed (pose 0 0 0) (pose 1 1 0) (config 1))
                 5))%R.
Proof.
  apply (computeError_reads_vertices_and_cfg_only
           (diffdrive_edge zeroed (pose 0 0 0) (pose 1 1 0) (config 1))%R
           (set_measurement
              (diffdrive_edge zeroed (pose 0 0 0) (pose 1 1 0) (config 1)) 5)%R);
    reflexivity.
Defined.

(** * Further properties of stream persistence *)

Section PersistenceMore.
Context {T : Type} {ST : Scalar T}.

Lemma skipws_blanks (ws : list ascii) (v : T) (rest : list (item T)) :
  forallb isspace ws = true ->
  skipws (blanks ws ++ Num v :: rest) = Num v :: rest.
Proof.
  induction ws as [| c ws IH]; cbn [forallb blanks map app skipws].
  - reflexivity.
  - intros Hws. apply andb_true_iff in Hws as [Hc Hws].
    rewrite Hc. apply IH. exact Hws.
Qed.

(** X17.  The input that [read] understands is the measurement followed by
    the weight: on a stream that holds two numbers, the first after any run
    of white space, the second separated from it by at least one
    white-space character, and the second followed by white space or the
    end of input, [read] of either class stores the first as the
    measurement and the second as [information()(0,0)], consumes exactly
    these, does not set the failbit and returns true. *)
Theorem read_measurement_then_weight
    (e : Edge T) (ws1 ws2 : list ascii) (m w : T) (rest : list (item T)) :
  forallb isspace ws1 = true ->
  ws2 <> [] ->
  forallb isspace ws2 = true ->
  delimited rest = true ->
  EdgeKinematicsDiffDrive.read e
    {| is_buf := blanks ws1 ++ Num m :: blanks ws2 ++ Num w :: rest;
       is_failbit := false |}
  = (set_information00 (set_measurement e m) w,
     {| is_buf := rest; is_failbit := false |}, true)
  /\ EdgeKinematicsCarlike.read e
       {| is_buf := blanks ws1 ++ Num m :: blanks ws2 ++ Num w :: rest;
          is_failbit := false |}
     = (set_information00 (set_measurement e m) w,
        {| is_buf := rest; is_failbit := false |}, true).
Proof.
  intros H1 _ H2 _.
  unfold EdgeKinematicsDiffDrive.read, EdgeKinematicsCarlike.read, get_double.
  cbn [is_failbit is_buf]. rewrite (skipws_blanks ws1 m _ H1).
  cbn [is_failbit is_buf]. rewrite (skipws_blanks ws2 w _ H2).
  split; reflexivity.
Qed.

(** X18.  [read] assigns the measurement and [information()(0,0)] and no
    other member: the vertices, the other entries of the information
    matrix, the stored error, the Jacobian blocks and [cfg_] are as before,
    whatever the stream holds; and the two classes read alike. *)
Theorem read_assigns_measurement_and_weight_only
    (e : Edge T) (ist : istream T) :
  fst (fst (EdgeKinematicsDiffDrive.read e ist))
  = set_information00
      (set_measurement e
         (_measurement (fst (fst (EdgeKinematicsDiffDrive.read e ist)))))
      (i00 (_information (fst (fst (EdgeKinematicsDiffDrive.read e ist)))))
  /\ EdgeKinematicsCarlike.read e ist = EdgeKinematicsDiffDrive.read e ist.
Proof.
  unfold EdgeKinematicsDiffDrive.read, EdgeKinematicsCarlike.read.
  destruct (get_double ist (_measurement e)) as [is1 m].
  destruct (get_double is1 (i00 (_information (set_measurement e m))))
    as [is2 w].
  split; reflexivity.
Qed.

(** X19.  On a stream that has already failed, [read] extracts nothing: the
    edge and the stream are unchanged, and [read] returns true. *)
Theorem read_failed_stream_keeps_edge (e : Edge T) (ist : istream T) :
  is_failbit ist = true ->
  EdgeKinematicsDiffDrive.read e ist = (e, ist, true)
  /\ EdgeKinematicsCarlike.read e ist = (e, ist, true).
Proof.
  intros Hfail.
  unfold EdgeKinematicsDiffDrive.read, EdgeKinematicsCarlike.read, get_double.
  rewrite Hfail. cbn [set_measurement _information]. rewrite Hfail.
  destruct e as [v0 v1 m [w a b c] err Ji Jj cfg]. split; reflexivity.
Qed.

(** X20.  [read] is not atomic: on a stream that ends after one number the
    measurement is replaced by that number, the weight keeps the value it
    had, the stream is left failed, and [read] returns true. *)
Theorem read_one_number_only (e : Edge T) (ws : list ascii) (m : T) :
  forallb isspace ws = true ->
  exists ist1 : istream T,
    EdgeKinematicsDiffDrive.read e
      {| is_buf := blanks ws ++ [Num m]; is_failbit := false |}
    = (set_information00 (set_measurement e m) (i00 (_information e)),
       ist1, true)
    /\ is_failbit ist1 = true.
Proof.
  intros Hws.
  unfold EdgeKinematicsDiffDrive.read, get_double.
  cbn [is_failbit is_buf]. rewrite (skipws_blanks ws m _ Hws).
  cbn [is_failbit is_buf skipws]. eexists. split; reflexivity.
Qed.

(** X21.  [write] returns the state of the stream: on a good stream it
    appends the weight and the trailer with the two error components to
    what the stream already holds and returns true; on a stream that is
    not good it writes nothing and returns false.  The measurement never
    reaches the output, and the two classes write alike. *)
Theorem write_reports_stream_state (e : Edge T) (os : ostream T) :
  EdgeKinematicsDiffDrive.write e os
  = (if os_good os
     then ({| os_buf := os_buf os
                        ++ Num (i00 (_information e))
                        :: text " Error NH-Constraint: "
                        ++ Num (coeff0 (_error e))
                        :: text ", Error PosDriveDir: "
                        ++ [Num (coeff1 (_error e))];
              os_good := true |}, true)
     else (os, false))
  /\ (forall m : T,
        EdgeKinematicsDiffDrive.write (set_measurement e m) os
        = EdgeKinematicsDiffDrive.write e os)
  /\ EdgeKinematicsCarlike.write e os = EdgeKinematicsDiffDrive.write e os.
Proof.
  unfold EdgeKinematicsDiffDrive.write, EdgeKinematicsCarlike.write,
    put_double, put_string.
  destruct os as [buf good]. destruct good; cbn [os_good os_buf].
  - split; [| split; [intros m |]; reflexivity].
    rewrite <- !app_assoc. reflexivity.
  - split; [| split; [intros m |]]; reflexivity.
Qed.

End PersistenceMore.

(** The line [5 1000], ended by a newline, read into a fresh edge. *)
Lemma read_measurement_then_weight_witness :
  EdgeKinematicsDiffDrive.read (zeroed (T := R))
    {| is_buf := blanks [] ++ Num 5%R :: blanks [" "%char]
                 ++ Num 1000%R :: [Chr "010"%char];
       is_failbit := false |}
  = (set_information00 (set_measurement zeroed 5%R) 1000%R,
     {| is_buf := [Chr "010"%char]; is_failbit := false |}, true)
  /\ EdgeKinematicsCarlike.read (zeroed (T := R))
       {| is_buf := blanks [] ++ Num 5%R :: blanks [" "%char]
                    ++ Num 1000%R :: [Chr "010"%char];
          is_failbit := false |}
     = (set_information00 (set_measurement zeroed 5%R) 1000%R,
        {| is_buf := [Chr "010"%char]; is_failbit := false |}, true).
Proof.
  apply (read_measurement_then_weight (zeroed (T := R)) [] [" "%char]
           5%R 1000%R [Chr "010"%char]);
    first [reflexivity | discriminate].
Defined.

(** A stream that failed before [read] is called. *)
Lemma read_failed_stream_keeps_edge_witness :
  EdgeKinematicsDiffDrive.read (zeroed (T := R))
    {| is_buf := [Num 5%R]; is_failbit := true |}
  = (zeroed, {| is_buf := [Num 5%R]; is_failbit := true |}, true)
  /\ EdgeKinematicsCarlike.read (zeroed (T := R))
       {| is_buf := [Num 5%R]; is_failbit := true |}
     = (zeroed, {| is_buf := [Num 5%R]; is_failbit := true |}, true).
Proof.
  apply (read_failed_stream_keeps_edge (zeroed (T := R))
           {| is_buf := [Num 5%R]; is_failbit := true |}).
  reflexivity.
Defined.

(** The line [5] read into a fresh edge. *)
Lemma read_one_number_only_witness :
  exists ist1 : istream R,
    EdgeKinematicsDiffDrive.read (zeroed (T := R))
      {| is_buf := blanks [" "%char] ++ [Num 5%R]; is_failbit := false |}
    = (set_information00 (set_measurement zeroed 5%R)
         (i00 (_information (zeroed (T := R)))),
       ist1, true)
    /\ is_failbit ist1 = true.
Proof.
  apply (read_one_number_only (zeroed (T := R)) [" "%char] 5%R).
  reflexivity.
Defined.

(** * Destruction *)

Section Destruction.

Lemma erase_spec (g : EdgeSets) (v : VertexPtr) (this : EdgePtr)
    (u : VertexPtr) (x : EdgePtr) :
  In x (erase g v this u) <-> In x (g u) /\ ~ (u = v /\ x = this).
Proof.
  unfold erase. destruct (Nat.eqb_spec u v) as [Huv | Huv].
  - split.
    + intros Hin. apply in_remove in Hin as [Hin Hne]. split; [exact Hin |].
      intros [_ Hx]. contradiction.
    + intros [Hin Hne]. apply in_in_remove; [| exact Hin].
      intros Hx. apply Hne. split; assumption.
  - split.
    + intros Hin. split; [exact Hin |]. intros [Hu _]. contradiction.
    + intros [Hin _]. exact Hin.
Qed.

Lemma erase_absent (g : EdgeSets) (v : VertexPtr) (this : EdgePtr) :
  ~ In this (g v) -> forall u : VertexPtr, erase g v this u = g u.
Proof.
  intros Hnotin u. unfold erase.
  destruct (Nat.eqb_spec u v) as [-> | _]; [| reflexivity].
  apply notin_remove. exact Hnotin.
Qed.

(** X22.  Destroying an edge that is attached to the vertices at [a] and
    [b] (which may be one and the same vertex) removes the edge from the
    edge sets of both and changes nothing else: every other edge stays
    registered where it was, and the edge sets of all other vertices are
    untouched. *)
Theorem destructor_detaches_edge
    (this : EdgePtr) (a b : VertexPtr) (g : EdgeSets) :
  exists g' : EdgeSets,
    destructor this (Ref a) (Ref b) g = Ok g'
    /\ ~ In this (g' a) /\ ~ In this (g' b)
    /\ (forall (u : VertexPtr) (x : EdgePtr),
          x <> this -> (In x (g' u) <-> In x (g u)))
    /\ (forall u : VertexPtr, u <> a -> u <> b -> g' u = g u).
Proof.
  eexists. split; [reflexivity |].
  split; [| split; [| split]].
  - rewrite !erase_spec. intros [[_ Hne] _]. apply Hne. split; reflexivity.
  - rewrite !erase_spec. intros [_ Hne]. apply Hne. split; reflexivity.
  - intros u x Hx. rewrite !erase_spec. tauto.
  - intros u Ha Hb. unfold erase.
    apply Nat.eqb_neq in Ha, Hb. rewrite Ha, Hb. reflexivity.
Qed.

(** X23.  The destructors tolerate an edge that the graph does not know:
    with both vertex pointers null, as the constructor leaves them, no edge
    set is touched; a null pointer beside an attached vertex is skipped;
    and destroying an edge that was never registered with its two vertices
    leaves every edge set as it was. *)
Theorem destructor_without_registration
    (this : EdgePtr) (g : EdgeSets) :
  destructor this NULL NULL g = Ok g
  /\ (forall a : VertexPtr,
        destructor this (Ref a) NULL g = Ok (erase g a this)
        /\ destructor this NULL (Ref a) g = Ok (erase g a this))
  /\ (forall a b : VertexPtr,
        ~ In this (g a) -> ~ In this (g b) ->
        exists g' : EdgeSets,
          destructor this (Ref a) (Ref b) g = Ok g'
          /\ forall u : VertexPtr, g' u = g u).
Proof.
  split; [reflexivity |]. split; [intros a; split; reflexivity |].
  intros a b Ha Hb. eexists. split; [reflexivity |].
  intros u. rewrite erase_absent.
  - apply erase_absent. exact Ha.
  - rewrite erase_absent by exact Ha. exact Hb.
Qed.

End Destruction.

(** * Further properties in binary64 arithmetic *)

Section RoundingMore.
Local Open Scope Z_scope.

(** The difference of a number and a smaller number that is not negative is
    not negative. *)
Lemma SFsub_sign_above (a b : Z) (t r : binary64) :
  within a t = true -> within b r = true -> sign_bit r = false ->
  SFleb t r = false ->
  sign_bit (SFsub 53 1024 t r) = false.
Proof.
  intros Ht Hr Hs Hcmp.
  destruct r as [sr | sr | | sr mr er]; try discriminate;
    cbn [sign_bit] in Hs; subst sr;
    destruct t as [st | st | | st mt et]; try discriminate;
    try (destruct st; cbn in Hcmp; discriminate).
  - destruct st; [cbn in Hcmp; discriminate | reflexivity].
  - destruct st; [cbn in Hcmp; discriminate |].
    apply within_finite in Ht, Hr. cbn [SFsub cond_Zopp].
    destruct (shl_align_spec mt et (Z.min et er)) as [mt' [et' [-> [Het' Hmt']]]].
    destruct (shl_align_spec mr er (Z.min et er)) as [mr' [er' [-> [Her' Hmr']]]].
    assert (Het : et' = Z.min et er) by lia.
    assert (Her : er' = Z.min et er) by lia.
    rewrite Het in Hmt'. rewrite Her in Hmr'. clear Het' Her' Het Her.
    cbn [fst]. rewrite Hmt', Hmr'.
    assert (Hpos : 0 < Zpos mt * 2 ^ (et - Z.min et er)
                       - Zpos mr * 2 ^ (er - Z.min et er)).
    { unfold SFleb, SFcompare in Hcmp.
      destruct (Z.compare_spec et er) as [Heq | Hlt | Hgt]; try discriminate.
      - change (Pos.compare_cont Eq mt mr) with (mt ?= mr)%positive in Hcmp.
        destruct (Pos.compare_spec mt mr) as [Hmeq | Hmlt | Hmgt];
          try discriminate.
        subst er. rewrite Z.min_id, Z.sub_diag. change (2 ^ 0) with 1. lia.
      - rewrite Z.min_r by lia. rewrite Z.sub_diag, Z.mul_1_r.
        pose proof (Zdigits2_lower (Zpos mt) ltac:(lia)) as Hlo.
        pose proof (Zdigits2_bound (Zpos mr) ltac:(lia)) as Hhi.
        assert (Hdt : Zdigits2 (Zpos mt) = 53) by lia.
        assert (Hdr : Zdigits2 (Zpos mr) <= 53) by lia.
        rewrite Hdt in Hlo. change (53 - 1) with 52 in Hlo.
        assert (Hmr : Zpos mr < 2 ^ 53).
        { eapply Z.lt_le_trans; [exact Hhi |].
          apply Z.pow_le_mono_r; lia. }
        assert (Hstep : 2 ^ 1 <= 2 ^ (et - er))
          by (apply Z.pow_le_mono_r; lia).
        change (2 ^ 1) with 2 in Hstep.
        change (2 ^ 53) with (2 ^ 52 * 2) in Hmr.
        nia. }
    destruct (Zpos mt * 2 ^ (et - Z.min et er)
              - Zpos mr * 2 ^ (er - Z.min et er)) as [| p | p] eqn:Hdiff;
      try lia.
    cbn [binary_normalize]. unfold binary_round.
    destruct (shl_align_spec p (Z.min et er)
                (fexp 53 1024 (Zpos (digits2_pos p) + Z.min et er)))
      as [mz [ez [-> [Hez Hmz]]]].
    change (Zpos (digits2_pos p)) with (Zdigits2 (Zpos p)) in Hez.
    assert (Hd : Zdigits2 (Zpos mz) + ez = Zdigits2 (Zpos p) + Z.min et er).
    { rewrite Hmz, Zdigits2_mul_pow2 by lia. lia. }
    pose proof (binary_round_aux_spec false (Zpos mz) ez loc_Exact ltac:(lia)
                  ltac:(rewrite Hd; lia)) as Hspec.
    destruct (binary_round_aux 53 1024 false (Zpos mz) ez loc_Exact)
      as [s' | s' | | s' m' e']; cbn [sign_bit]; try tauto.
Qed.

(** The penalty of a radius against a bound that is a number below 2^1022
    is not negative. *)
Lemma penalty_radius_not_negative (r mtr : binary64)
    (libm_cos libm_sin : binary64 -> binary64) :
  within 1022 mtr = true -> radius_like r ->
  sign_bit
    (penaltyBoundFromBelow (ST := Scalar_binary64 libm_cos libm_sin)
       r mtr (S754_zero false)) = false.
Proof.
  intros Hmtr Hr. unfold penaltyBoundFromBelow.
  cbn [s_leb s_add s_sub s_zero Scalar_binary64].
  pose proof (SFadd_zero_r 1022 mtr Hmtr) as Ht.
  set (t := SFadd 53 1024 mtr (S754_zero false)) in *.
  destruct (SFleb t r) eqn:Hcmp; [reflexivity |].
  destruct Hr as [-> | [Hw Hs]].
  - exfalso. destruct t as [st | st | | st mt et]; try discriminate;
      cbn in Hcmp; discriminate.
  - exact (SFsub_sign_above 1022 1024 t r Ht Hw Hs Hcmp).
Qed.

Lemma b64_not_negative (v : binary64) :
  b64_isfinite v = true -> sign_bit v = false -> SFleb b64_zero v = true.
Proof.
  destruct v as [s | s | | s m e]; cbn; try congruence; intros _ ->; reflexivity.
Qed.

Lemma b64_fabs_not_negative (v : binary64) :
  b64_isfinite (SFabs v) = true -> SFleb b64_zero (SFabs v) = true.
Proof. destruct v as [s | s | | s m e]; cbn; congruence. Qed.

Lemma SFsub_diag_zero (k : Z) (x : binary64) :
  within k x = true -> SFsub 53 1024 x x = S754_zero false.
Proof.
  destruct x as [s | s | | s m e]; try discriminate; intros _.
  - now destruct s.
  - cbn [SFsub]. rewrite Z.sub_diag. reflexivity.
Qed.

Lemma SFmul_zero_r (k : Z) (c : binary64) (s : bool) :
  within k c = true ->
  exists s' : bool, SFmul 53 1024 c (S754_zero s) = S754_zero s'.
Proof.
  destruct c as [sc | sc | | sc mc ec]; try discriminate; intros _;
    eexists; reflexivity.
Qed.

Lemma SFmul_zero_l (k : Z) (c : binary64) (s : bool) :
  within k c = true ->
  exists s' : bool, SFmul 53 1024 (S754_zero s) c = S754_zero s'.
Proof.
  destruct c as [sc | sc | | sc mc ec]; try discriminate; intros _;
    eexists; reflexivity.
Qed.

End RoundingMore.

Section Binary64More.
Variables libm_cos libm_sin : binary64 -> binary64.
Local Open Scope Z_scope.

#[local] Hint Extern 0 (Scalar binary64) =>
  exact (Scalar_binary64 libm_cos libm_sin) : typeclass_instances.

Lemma b64_penalty_zero_not_negative (d : binary64) :
  b64_isfinite (penaltyBoundFromBelow d s_zero s_zero) = true ->
  SFleb b64_zero (penaltyBoundFromBelow d s_zero s_zero) = true.
Proof.
  unfold penaltyBoundFromBelow.
  cbn [s_leb s_add s_sub s_zero Scalar_binary64].
  destruct d as [s | s | | s m e]; try (destruct s); cbn; congruence.
Qed.

(** X24.  In binary64, in every state of the edge, [computeError] of either
    class either returns an error vector whose two components are finite or
    stops in one of three ways: the assertion on [cfg_], a vertex (or
    configuration) pointer that cannot be followed, or the finiteness
    assertion.  In particular the car-like edge never divides by zero, also
    when the normalised heading difference is NaN. *)
Theorem computeError_fault_classes_b64
    (normalize_theta : binary64 -> binary64) (e : Edge binary64) :
  match EdgeKinematicsDiffDrive.computeError e with
  | Ok e' => b64_isfinite (coeff0 (_error e')) = true
             /\ b64_isfinite (coeff1 (_error e')) = true
  | Fault f => f = AssertionFailed diffdrive_cfg_msg
               \/ f = InvalidPointer
               \/ f = AssertionFailed diffdrive_finite_msg
  end
  /\ match EdgeKinematicsCarlike.computeError normalize_theta e with
     | Ok e' => b64_isfinite (coeff0 (_error e')) = true
                /\ b64_isfinite (coeff1 (_error e')) = true
     | Fault f => f = AssertionFailed carlike_cfg_msg
                  \/ f = InvalidPointer
                  \/ f = AssertionFailed carlike_finite_msg
     end.
Proof.
  unfold EdgeKinematicsDiffDrive.computeError,
    EdgeKinematicsCarlike.computeError.
  destruct e as [v0 v1 m inf err Ji Jj c].
  cbn [cfg_ _vertices0 _vertices1].
  split.
  - destruct c as [| cfg |]; cbn [nonnull ROS_ASSERT_MSG bind]; auto;
      (destruct v0 as [| conf1 |]; cbn [deref bind]; auto);
      (destruct v1 as [| conf2 |]; cbn [deref bind]; auto);
      cbn [s_isfinite Scalar_binary64]; unfold ROS_ASSERT_MSG;
      match goal with
      | |- context [if ?a && ?b then _ else _] =>
          destruct a eqn:Ha; destruct b eqn:Hb
      end; cbn [andb bind _error set_error coeff0 coeff1]; auto.
  - destruct c as [| cfg |]; cbn [nonnull ROS_ASSERT_MSG bind]; auto;
      (destruct v0 as [| conf1 |]; cbn [deref bind]; auto);
      (destruct v1 as [| conf2 |]; cbn [deref bind]; auto);
      cbn [s_isfinite s_eqb s_zero s_fabs Scalar_binary64];
      unfold ROS_ASSERT_MSG;
      (destruct (SFeqb (normalize_theta (s_sub (theta conf2) (theta conf1)))
                   (S754_zero false)) eqn:Hw;
       [| rewrite (b64_checked_div libm_cos libm_sin _ _ Hw)]);
      cbn [bind deref]; auto;
      match goal with
      | |- context [if ?a && ?b then _ else _] =>
          destruct a eqn:Ha; destruct b eqn:Hb
      end; cbn [andb bind _error set_error coeff0 coeff1]; auto.
Qed.

(** X25.  In binary64, whenever [computeError] of the differential-drive
    edge returns, in any state of the edge, both components of the error
    are numbers that are not negative: [fabs] and the penalty clear the
    sign, and the assertion has excluded NaN and infinity. *)
Theorem diffdrive_error_not_negative_b64 (e e' : Edge binary64) :
  EdgeKinematicsDiffDrive.computeError e = Ok e' ->
  SFleb b64_zero (coeff0 (_error e')) = true
  /\ SFleb b64_zero (coeff1 (_error e')) = true.
Proof.
  unfold EdgeKinematicsDiffDrive.computeError, ROS_ASSERT_MSG.
  destruct (nonnull (cfg_ e)); cbn [bind]; [| discriminate].
  destruct (_vertices0 e) as [| conf1 |]; cbn [deref bind]; try discriminate.
  destruct (_vertices1 e) as [| conf2 |]; cbn [deref bind]; try discriminate.
  cbn [s_isfinite s_fabs Scalar_binary64].
  match goal with
  | |- context [b64_isfinite ?a && b64_isfinite ?b] =>
      destruct (b64_isfinite a) eqn:Ha; destruct (b64_isfinite b) eqn:Hb
  end; cbn [andb bind]; try discriminate.
  intros Hrun. injection Hrun as Hrun. subst e'.
  cbn [_error set_error coeff0 coeff1]. split.
  - apply b64_fabs_not_negative. exact Ha.
  - apply b64_penalty_zero_not_negative. exact Hb.
Qed.

(** X26.  In binary64, between two poses whose coordinates and headings are
    numbers of magnitude below [2 ^ 500], with an angle normalisation that
    gives numbers and a [min_turning_radius] that is a number of magnitude
    below [2 ^ 1022], both components of the error that [computeError] of
    the car-like edge returns are numbers that are not negative: the
    rounded difference [min_turning_radius - r] of the penalty is taken
    only when [r] is smaller, and is then not negative. *)
Theorem carlike_error_not_negative_b64
    (normalize_theta : binary64 -> binary64) (raw : Edge binary64)
    (conf1 conf2 : VertexPose binary64) (cfg : TebConfig binary64)
    (e' : Edge binary64) :
  gives_numbers normalize_theta ->
  pose_within 500 conf1 = true -> pose_within 500 conf2 = true ->
  within 1022 (min_turning_radius (robot cfg)) = true ->
  EdgeKinematicsCarlike.computeError normalize_theta
    (carlike_edge raw conf1 conf2 cfg) = Ok e' ->
  SFleb b64_zero (coeff0 (_error e')) = true
  /\ SFleb b64_zero (coeff1 (_error e')) = true.
Proof.
  intros Hnorm H1 H2 Hmtr. destruct cfg as [[mtr]].
  cbn [robot min_turning_radius] in Hmtr.
  unfold EdgeKinematicsCarlike.computeError.
  cbn [carlike_edge EdgeKinematicsCarlike.setTebConfig set_cfg cfg_ nonnull
       ROS_ASSERT_MSG bind set_vertices _vertices0 _vertices1 deref
       s_isfinite s_eqb s_zero s_fabs robot min_turning_radius
       Scalar_binary64].
  unfold ROS_ASSERT_MSG.
  destruct (SFeqb (normalize_theta (s_sub (theta conf2) (theta conf1)))
              (S754_zero false)) eqn:Hw.
  - cbn [bind].
    match goal with
    | |- context [b64_isfinite ?a && b64_isfinite ?b] =>
        destruct (b64_isfinite a) eqn:Ha
    end; cbn [andb b64_isfinite bind]; try discriminate.
    intros Hrun. injection Hrun as Hrun. subst e'.
    cbn [_error set_error coeff0 coeff1]. split; [| reflexivity].
    apply b64_fabs_not_negative. exact Ha.
  - rewrite (b64_checked_div libm_cos libm_sin _ _ Hw). cbn [bind].
    match goal with
    | |- context [b64_isfinite ?a && b64_isfinite ?b] =>
        destruct (b64_isfinite a) eqn:Ha; destruct (b64_isfinite b) eqn:Hb
    end; cbn [andb bind]; try discriminate.
    intros Hrun. injection Hrun as Hrun. subst e'.
    cbn [_error set_error coeff0 coeff1]. split.
    + apply b64_fabs_not_negative. exact Ha.
    + apply b64_not_negative; [exact Hb |].
      apply penalty_radius_not_negative; [exact Hmtr |].
      assert (Hth : b64_isfinite (SFsub 53 1024 (theta conf2) (theta conf1))
                    = true).
      { unfold pose_within in H1, H2. rewrite !andb_true_iff in H1, H2.
        apply (within_isfinite (Z.max 500 500 + 2)).
        apply SFsub_within; try tauto; lia. }
      pose proof (Hnorm _ Hth) as Hnum.
      destruct (norm_number libm_cos libm_sin conf1 conf2 H1 H2) as [Hn Hsn].
      exact (SFdiv_radius_like _ _ Hn Hsn Hnum Hw).
Qed.

(** X27.  In binary64, with [cos] and [sin] that give numbers of magnitude
    below 2, an edge whose two poses are one and the same finite pose costs
    exactly nothing: [computeError] of the differential-drive edge returns
    and both components are +0. *)
Theorem diffdrive_identical_poses_b64
    (raw : Edge binary64) (conf : VertexPose binary64)
    (cfg : TebConfig binary64) :
  unit_range libm_cos -> unit_range libm_sin ->
  pose_within 1024 conf = true ->
  EdgeKinematicsDiffDrive.computeError (diffdrive_edge raw conf conf cfg)
  = Ok (set_error (diffdrive_edge raw conf conf cfg) (Vec2 b64_zero b64_zero)).
Proof.
  intros Hcos Hsin Hconf.
  unfold pose_within in Hconf. rewrite !andb_true_iff in Hconf.
  destruct Hconf as [[Hx Hy] Ht].
  pose proof (Hcos _ (within_isfinite _ _ Ht)) as Hc.
  pose proof (Hsin _ (within_isfinite _ _ Ht)) as Hs.
  pose proof (SFadd_within 1 1 _ _ Hc Hc ltac:(lia) ltac:(lia)) as Hcc.
  pose proof (SFadd_within 1 1 _ _ Hs Hs ltac:(lia) ltac:(lia)) as Hss.
  unfold EdgeKinematicsDiffDrive.computeError.
  cbn [diffdrive_edge EdgeKinematicsDiffDrive.setTebConfig set_cfg cfg_ nonnull
       ROS_ASSERT_MSG bind set_vertices _vertices0 _vertices1 deref].
  unfold penaltyBoundFromBelow, dot, vsub.
  cbn [coeff0 coeff1 s_isfinite s_fabs s_sub s_mul s_add s_cos s_sin s_zero
       s_leb Scalar_binary64].
  rewrite (SFsub_diag_zero _ _ Hx), (SFsub_diag_zero _ _ Hy).
  destruct (SFmul_zero_r _ _ false Hcc) as [s1 ->].
  destruct (SFmul_zero_r _ _ false Hss) as [s2 ->].
  destruct (SFmul_zero_l _ _ false Hc) as [s3 ->].
  destruct (SFmul_zero_l _ _ false Hs) as [s4 ->].
  destruct s1, s2, s3, s4; reflexivity.
Qed.

End Binary64More.

(** From the origin, heading along x, one unit backward and one unit to the
    side: the call returns the components 2 and 1. *)
Lemma diffdrive_error_not_negative_b64_witness :
  EdgeKinematicsDiffDrive.computeError (ST := libm_at_zero) b64_backward_edge
  = Ok (set_error b64_backward_edge (Vec2 (b64_of_Z 2) b64_one))
  /\ SFleb b64_zero (b64_of_Z 2) = true
  /\ SFleb b64_zero b64_one = true.
Proof.
  assert (Hrun : EdgeKinematicsDiffDrive.computeError (ST := libm_at_zero)
                   b64_backward_edge
                 = Ok (set_error b64_backward_edge (Vec2 (b64_of_Z 2) b64_one)))
    by (vm_compute; reflexivity).
  split; [exact Hrun |].
  exact (diffdrive_error_not_negative_b64 (fun _ => b64_one) (fun _ => b64_zero)
           b64_backward_edge _ Hrun).
Defined.

(** One unit forward with a normalised heading difference of 1 and a
    minimum turning radius of 1: the radius is 1 and both components are
    +0. *)
Lemma carlike_error_not_negative_b64_witness :
  EdgeKinematicsCarlike.computeError (ST := libm_at_zero) (fun _ => b64_one)
    b64_forward_carlike_edge
  = Ok (set_error b64_forward_carlike_edge (Vec2 b64_zero b64_zero))
  /\ SFleb b64_zero b64_zero = true
  /\ SFleb b64_zero b64_zero = true.
Proof.
  assert (Hrun : EdgeKinematicsCarlike.computeError (ST := libm_at_zero)
                   (fun _ => b64_one) b64_forward_carlike_edge
                 = Ok (set_error b64_forward_carlike_edge
                         (Vec2 b64_zero b64_zero)))
    by (vm_compute; reflexivity).
  split; [exact Hrun |].
  refine (carlike_error_not_negative_b64 (fun _ => b64_one) (fun _ => b64_zero)
            (fun _ => b64_one) (zeroed (ST := libm_at_zero))
            (Pose (Vec2 b64_zero b64_zero) b64_zero)
            (Pose (Vec2 b64_one b64_zero) b64_zero)
            {| robot := {| min_turning_radius := b64_one |} |} _
            _ _ _ _ Hrun);
    first [reflexivity | intros x _; reflexivity].
Defined.

(** The pose (1, 1) with heading 0, twice. *)
Lemma diffdrive_identical_poses_b64_witness :
  EdgeKinematicsDiffDrive.computeError (ST := libm_at_zero)
    (diffdrive_edge (ST := libm_at_zero) (zeroed (ST := libm_at_zero))
       (Pose (Vec2 b64_one b64_one) b64_zero)
       (Pose (Vec2 b64_one b64_one) b64_zero)
       {| robot := {| min_turning_radius := b64_one |} |})
  = Ok (set_error
          (diffdrive_edge (ST := libm_at_zero) (zeroed (ST := libm_at_zero))
             (Pose (Vec2 b64_one b64_one) b64_zero)
             (Pose (Vec2 b64_one b64_one) b64_zero)
             {| robot := {| min_turning_radius := b64_one |} |})
          (Vec2 b64_zero b64_zero)).
Proof.
  apply (diffdrive_identical_poses_b64 (fun _ => b64_one) (fun _ => b64_zero)
           (zeroed (ST := libm_at_zero))
           (Pose (Vec2 b64_one b64_one) b64_zero)
           {| robot := {| min_turning_radius := b64_one |} |});
    first [reflexivity | intros x _; reflexivity].
Defined.

(** * The residuals in both arithmetics

    The statements about single error components, read once in exact
    arithmetic and once in binary64, where every operation rounds and the
    finiteness assertion can stop the call. *)

Section RoundingStrict.
Local Open Scope Z_scope.






(** The order of binary64, read from either side. *)
Lemma SFcompare_antisym (x y : binary64) :
  SFcompare y x = option_map CompOpp (SFcompare x y).
Proof.
  destruct x as [sx | sx | | sx mx ex], y as [sy | sy | | sy my ey];
    try (destruct sx); try (destruct sy); try reflexivity;
    cbn [SFcompare option_map];
    change (Pos.compare_cont Eq my mx) with (my ?= mx)%positive;
    change (Pos.compare_cont Eq mx my) with (mx ?= my)%positive;
    rewrite (Z.compare_antisym ex ey), (Pos.compare_antisym mx my);
    destruct (ex ?= ey); cbn [CompOpp]; try reflexivity;
    destruct (mx ?= my)%positive; reflexivity.
Qed.


Lemma SFcompare_opp (x y : binary64) :
  SFcompare (SFopp x) (SFopp y) = SFcompare y x.
Proof.
  rewrite (SFcompare_antisym x y).
  destruct x as [sx | sx | | sx mx ex], y as [sy | sy | | sy my ey];
    try (destruct sx); try (destruct sy); try reflexivity;
    cbn [SFcompare SFopp negb option_map];
    destruct (ex ?= ey); cbn [CompOpp]; try reflexivity;
    destruct (Pos.compare_cont Eq mx my); reflexivity.
Qed.

End RoundingStrict.

Section BothArithmetics.
Variables libm_cos libm_sin : binary64 -> binary64.
Local Open Scope Z_scope.

#[local] Hint Extern 0 (Scalar binary64) =>
  exact (Scalar_binary64 libm_cos libm_sin) : typeclass_instances.

(** What [computeError] of a bound differential-drive edge does in binary64:
    it returns the two components when both are finite and stops at the
    finiteness assertion otherwise. *)
Lemma diffdrive_computeError_b64 (raw : Edge binary64)
    (conf1 conf2 : VertexPose binary64) (cfg : TebConfig binary64) :
  EdgeKinematicsDiffDrive.computeError (diffdrive_edge raw conf1 conf2 cfg)
  = if b64_isfinite (SFabs (computed_nh_term conf1 conf2))
       && b64_isfinite
            (penaltyBoundFromBelow (computed_projection conf1 conf2)
               b64_zero b64_zero)
    then Ok (set_error (diffdrive_edge raw conf1 conf2 cfg)
               (Vec2 (SFabs (computed_nh_term conf1 conf2))
                  (penaltyBoundFromBelow (computed_projection conf1 conf2)
                     b64_zero b64_zero)))
    else Fault (AssertionFailed diffdrive_finite_msg).
Proof.
  unfold EdgeKinematicsDiffDrive.computeError, ROS_ASSERT_MSG.
  cbn [diffdrive_edge EdgeKinematicsDiffDrive.setTebConfig set_cfg cfg_ nonnull
       bind set_vertices _vertices0 _vertices1 deref].
  change (s_isfinite (T := binary64)) with b64_isfinite.
  change (s_fabs (T := binary64)) with SFabs.
  change (s_zero (T := binary64)) with b64_zero.
  fold (computed_nh_term conf1 conf2).
  fold (computed_projection conf1 conf2).
  destruct (b64_isfinite (SFabs (computed_nh_term conf1 conf2))
            && b64_isfinite
                 (penaltyBoundFromBelow (computed_projection conf1 conf2)
                    b64_zero b64_zero)); reflexivity.
Qed.

(** The drive-direction penalty in binary64, by cases of the rounded
    projection. *)
Lemma b64_penalty_zero_cases (d : binary64) :
  (SFleb b64_zero d = true ->
   penaltyBoundFromBelow d b64_zero b64_zero = b64_zero)
  /\ (SFltb d b64_zero = true ->
      b64_isfinite (penaltyBoundFromBelow d b64_zero b64_zero) = true ->
      penaltyBoundFromBelow d b64_zero b64_zero = SFopp d
      /\ SFltb b64_zero (SFopp d) = true).
Proof.
  unfold penaltyBoundFromBelow.
  cbn [s_leb s_add s_sub s_zero Scalar_binary64].
  change (SFadd 53 1024 b64_zero b64_zero) with b64_zero.
  split.
  - intros ->. reflexivity.
  - destruct d as [s | s | | s m e]; try (destruct s); cbn;
      try discriminate; intros _ _; split; reflexivity.
Qed.

(** C1.  The first error component of the differential-drive edge.  In
    exact arithmetic it is
    |(cos th1 + cos th2) * (y2 - y1) - (sin th1 + sin th2) * (x2 - x1)|
    for every pair of poses, and never negative.  In binary64 the call
    either stops at the finiteness assertion or returns, as first component,
    [fabs] of the same expression with every operation rounded, which is
    then a finite number that is not negative; it returns whenever [cos]
    and [sin] give numbers of magnitude below 2 and the coordinates and
    headings of both poses are numbers of magnitude below [2 ^ 1000]. *)
Theorem diffdrive_nonholonomic_residual :
  (forall (raw : Edge R) (cfg : TebConfig R) (x1 y1 th1 x2 y2 th2 : R),
     exists e' : Edge R,
       EdgeKinematicsDiffDrive.computeError
         (diffdrive_edge raw (pose x1 y1 th1) (pose x2 y2 th2) cfg) = Ok e'
       /\ coeff0 (_error e')
          = Rabs ((cos th1 + cos th2) * (y2 - y1)
                  - (sin th1 + sin th2) * (x2 - x1))
       /\ (0 <= coeff0 (_error e'))%R)
  /\ (forall (raw : Edge binary64) (conf1 conf2 : VertexPose binary64)
             (cfg : TebConfig binary64),
        match EdgeKinematicsDiffDrive.computeError
                (diffdrive_edge raw conf1 conf2 cfg) with
        | Ok e' =>
            coeff0 (_error e') = SFabs (computed_nh_term conf1 conf2)
            /\ b64_isfinite (coeff0 (_error e')) = true
            /\ SFleb b64_zero (coeff0 (_error e')) = true
        | Fault f => f = AssertionFailed diffdrive_finite_msg
        end)
  /\ (forall (raw : Edge binary64) (conf1 conf2 : VertexPose binary64)
             (cfg : TebConfig binary64),
        unit_range libm_cos -> unit_range libm_sin ->
        pose_within 1000 conf1 = true -> pose_within 1000 conf2 = true ->
        exists e' : Edge binary64,
          EdgeKinematicsDiffDrive.computeError
            (diffdrive_edge raw conf1 conf2 cfg) = Ok e').
Proof.
  split; [| split].
  - intros raw cfg x1 y1 th1 x2 y2 th2.
    exact (diffdrive_nonholonomic_residual_exact raw cfg x1 y1 th1 x2 y2 th2).
  - intros raw conf1 conf2 cfg. rewrite diffdrive_computeError_b64.
    destruct (b64_isfinite (SFabs (computed_nh_term conf1 conf2))) eqn:Ha;
      [| reflexivity].
    destruct (b64_isfinite
                (penaltyBoundFromBelow (computed_projection conf1 conf2)
                   b64_zero b64_zero)); cbn [andb]; [| reflexivity].
    cbn [_error set_error coeff0].
    split; [reflexivity |]. split; [exact Ha |].
    apply b64_fabs_not_negative. exact Ha.
  - intros raw conf1 conf2 cfg Hcos Hsin H1 H2.
    exact (diffdrive_returns_in_range libm_cos libm_sin Hcos Hsin raw
             conf1 conf2 cfg H1 H2).
Qed.

(** C4.  The second error component of the differential-drive edge is
    [penaltyBoundFromBelow] of the projection of the displacement on the
    first heading, with bound 0 and margin 0.  In exact arithmetic it is 0
    when the projection is >= 0, strictly positive when it is negative, and
    strictly larger for any pose pair whose projection is further
    backward.  In binary64 the same holds of the projection as the code
    computes it, with every operation rounded, whenever the call returns:
    the component is +0 when the rounded projection is >= 0, it is the
    negated rounded projection, strictly positive, when that is negative,
    and it is strictly larger for any pose pair whose rounded projection is
    smaller. *)
Theorem diffdrive_drive_direction_residual :
  (forall (raw : Edge R) (cfg : TebConfig R) (x1 y1 th1 x2 y2 th2 : R),
     exists e' : Edge R,
       EdgeKinematicsDiffDrive.computeError
         (diffdrive_edge raw (pose x1 y1 th1) (pose x2 y2 th2) cfg) = Ok e'
       /\ coeff1 (_error e')
          = penaltyBoundFromBelow
              ((x2 - x1) * cos th1 + (y2 - y1) * sin th1)%R 0%R 0%R
       /\ ((0 <= (x2 - x1) * cos th1 + (y2 - y1) * sin th1)%R ->
           coeff1 (_error e') = 0%R)
       /\ (((x2 - x1) * cos th1 + (y2 - y1) * sin th1 < 0)%R ->
           (0 < coeff1 (_error e'))%R
           /\ forall (raw' : Edge R) (cfg' : TebConfig R)
                     (u1 v1 ph1 u2 v2 ph2 : R),
                ((u2 - u1) * cos ph1 + (v2 - v1) * sin ph1
                 < (x2 - x1) * cos th1 + (y2 - y1) * sin th1)%R ->
                exists e'' : Edge R,
                  EdgeKinematicsDiffDrive.computeError
                    (diffdrive_edge raw' (pose u1 v1 ph1) (pose u2 v2 ph2) cfg')
                  = Ok e''
                  /\ (coeff1 (_error e') < coeff1 (_error e''))%R))
  /\ (forall (raw : Edge binary64) (conf1 conf2 : VertexPose binary64)
             (cfg : TebConfig binary64) (e' : Edge binary64),
        EdgeKinematicsDiffDrive.computeError
          (diffdrive_edge raw conf1 conf2 cfg) = Ok e' ->
        coeff1 (_error e')
        = penaltyBoundFromBelow (computed_projection conf1 conf2)
            b64_zero b64_zero
        /\ (SFleb b64_zero (computed_projection conf1 conf2) = true ->
            coeff1 (_error e') = b64_zero)
        /\ (SFltb (computed_projection conf1 conf2) b64_zero = true ->
            coeff1 (_error e') = SFopp (computed_projection conf1 conf2)
            /\ SFltb b64_zero (coeff1 (_error e')) = true
            /\ forall (raw' : Edge binary64)
                      (conf1' conf2' : VertexPose binary64)
                      (cfg' : TebConfig binary64) (e'' : Edge binary64),
                 EdgeKinematicsDiffDrive.computeError
                   (diffdrive_edge raw' conf1' conf2' cfg') = Ok e'' ->
                 SFltb (computed_projection conf1' conf2')
                       (computed_projection conf1 conf2) = true ->
                 SFltb (coeff1 (_error e')) (coeff1 (_error e'')) = true)).
Proof.
  split.
  - intros raw cfg x1 y1 th1 x2 y2 th2.
    exact (diffdrive_drive_direction_residual_exact raw cfg x1 y1 th1 x2 y2 th2).
  - assert (Hrun : forall raw conf1 conf2 cfg e',
               EdgeKinematicsDiffDrive.computeError
                 (diffdrive_edge raw conf1 conf2 cfg) = Ok e' ->
               coeff1 (_error e')
               = penaltyBoundFromBelow (computed_projection conf1 conf2)
                   b64_zero b64_zero
               /\ b64_isfinite (coeff1 (_error e')) = true).
    { intros raw conf1 conf2 cfg e'. rewrite diffdrive_computeError_b64.
      destruct (b64_isfinite (SFabs (computed_nh_term conf1 conf2)));
        [| discriminate].
      destruct (b64_isfinite
                  (penaltyBoundFromBelow (computed_projection conf1 conf2)
                     b64_zero b64_zero)) eqn:Hb; cbn [andb]; [| discriminate].
      intros Hok. injection Hok as Hok. subst e'.
      cbn [_error set_error coeff1]. split; [reflexivity | exact Hb]. }
    intros raw conf1 conf2 cfg e' Hok.
    destruct (Hrun raw conf1 conf2 cfg e' Hok) as [Hval Hfin].
    destruct (b64_penalty_zero_cases (computed_projection conf1 conf2))
      as [Hfwd Hback].
    split; [exact Hval |]. split.
    + intros Hd. rewrite Hval. apply Hfwd. exact Hd.
    + intros Hd. rewrite Hval in Hfin.
      destruct (Hback Hd Hfin) as [Heq Hpos].
      split; [rewrite Hval; exact Heq |].
      split; [rewrite Hval, Heq; exact Hpos |].
      intros raw' conf1' conf2' cfg' e'' Hok' Hfurther.
      destruct (Hrun raw' conf1' conf2' cfg' e'' Hok') as [Hval' Hfin'].
      destruct (b64_penalty_zero_cases (computed_projection conf1' conf2'))
        as [_ Hback'].
      assert (Hd' : SFltb (computed_projection conf1' conf2') b64_zero = true).
      { revert Hfurther Hd. unfold SFltb.
        destruct (computed_projection conf1' conf2') as [s' | s' | | s' m' e0'],
          (computed_projection conf1 conf2) as [s | s | | s m e0];
          try (destruct s'); try (destruct s); cbn; congruence. }
      rewrite Hval' in Hfin'.
      destruct (Hback' Hd' Hfin') as [Heq' _].
      rewrite Hval, Heq, Hval', Heq'.
      unfold SFltb. rewrite SFcompare_opp. exact Hfurther.
Qed.


End BothArithmetics.

(** ** The corrected statements at concrete poses *)



Lemma b64_to_R_one : b64_to_R b64_one = 1%R.
Proof.
  change (b64_to_R b64_one)
    with (IZR 4503599627370496 / IZR 4503599627370496)%R.
  lra.
Qed.


Lemma b64_to_R_two_pow_m60 :
  b64_to_R b64_two_pow_m60 = (/ IZR 1152921504606846976)%R.
Proof.
  change (b64_to_R b64_two_pow_m60)
    with (IZR 4503599627370496 / IZR 5192296858534827628530496329220096)%R.
  change 5192296858534827628530496329220096%Z
    with (4503599627370496 * 1152921504606846976)%Z.
  rewrite mult_IZR. field.
Qed.

(** From the origin, heading along x, to (1, 1) with the same heading, in
    both arithmetics. *)
Lemma diffdrive_nonholonomic_residual_witness :
  (exists e' : Edge R,
     EdgeKinematicsDiffDrive.computeError
       (diffdrive_edge zeroed (pose 0 0 0) (pose 1 1 0) (config 1))%R = Ok e'
     /\ coeff0 (_error e')
        = Rabs ((cos 0 + cos 0) * (1 - 0) - (sin 0 + sin 0) * (1 - 0))%R
     /\ (0 <= coeff0 (_error e'))%R)
  /\ (exists e' : Edge binary64,
        EdgeKinematicsDiffDrive.computeError (ST := libm_at_zero)
          (diffdrive_edge (ST := libm_at_zero) (zeroed (ST := libm_at_zero))
             (Pose (Vec2 b64_zero b64_zero) b64_zero)
             (Pose (Vec2 b64_one b64_one) b64_zero)
             {| robot := {| min_turning_radius := b64_one |} |}) = Ok e').
Proof.
  destruct (diffdrive_nonholonomic_residual (fun _ => b64_one)
              (fun _ => b64_zero)) as [Hexact [_ Hrange]].
  split.
  - exact (Hexact zeroed (config 1%R) 0%R 0%R 0%R 1%R 1%R 0%R).
  - apply Hrange; first [reflexivity | intros x _; reflexivity].
Defined.

(** C1, the counterexample.  The two far corners are finite poses, and
    between them, with [cos 0 = 1] and [sin 0 = 0], the first component as
    the code computes it is NaN: the position difference overflows to
    +infinity in both coordinates, [0 * infinity] is NaN, and [fabs] keeps
    it.  NaN is not the absolute value of a real number and is not >= 0;
    the call stops at the finiteness assertion. *)
Lemma nonholonomic_residual_nan_at_far_corners :
  pose_within 1024 far_corner_lo = true
  /\ pose_within 1024 far_corner_hi = true
  /\ SFabs (computed_nh_term (ST := libm_at_zero) far_corner_lo far_corner_hi)
     = S754_nan
  /\ SFleb b64_zero
       (SFabs (computed_nh_term (ST := libm_at_zero)
                 far_corner_lo far_corner_hi)) = false
  /\ EdgeKinematicsDiffDrive.computeError (ST := libm_at_zero)
       b64_far_corner_edge
     = Fault (AssertionFailed diffdrive_finite_msg).
Proof. repeat split; vm_compute; reflexivity. Qed.

(** One unit backward and one unit to the side in binary64: the rounded
    projection is -1 and the component is 1. *)
Lemma diffdrive_drive_direction_residual_witness :
  EdgeKinematicsDiffDrive.computeError (ST := libm_at_zero) b64_backward_edge
  = Ok (set_error b64_backward_edge (Vec2 (b64_of_Z 2) b64_one))
  /\ computed_projection (ST := libm_at_zero)
       (Pose (Vec2 b64_zero b64_zero) b64_zero)
       (Pose (Vec2 (SFopp b64_one) b64_one) b64_zero) = SFopp b64_one
  /\ coeff1 (_error (set_error b64_backward_edge (Vec2 (b64_of_Z 2) b64_one)))
     = SFopp (computed_projection (ST := libm_at_zero)
                (Pose (Vec2 b64_zero b64_zero) b64_zero)
                (Pose (Vec2 (SFopp b64_one) b64_one) b64_zero))
  /\ SFltb b64_zero
       (coeff1 (_error (set_error b64_backward_edge
                          (Vec2 (b64_of_Z 2) b64_one)))) = true.
Proof.
  assert (Hrun : EdgeKinematicsDiffDrive.computeError (ST := libm_at_zero)
                   b64_backward_edge
                 = Ok (set_error b64_backward_edge (Vec2 (b64_of_Z 2) b64_one)))
    by (vm_compute; reflexivity).
  destruct (diffdrive_drive_direction_residual (fun _ => b64_one)
              (fun _ => b64_zero)) as [_ Hb64].
  destruct (Hb64 (zeroed (ST := libm_at_zero))
              (Pose (Vec2 b64_zero b64_zero) b64_zero)
              (Pose (Vec2 (SFopp b64_one) b64_one) b64_zero)
              {| robot := {| min_turning_radius := b64_one |} |}
              _ Hrun) as [_ [_ Hback]].
  destruct (Hback ltac:(vm_compute; reflexivity)) as [Heq [Hpos _]].
  split; [exact Hrun |]. split; [vm_compute; reflexivity |].
  split; [exact Heq | exact Hpos].
Defined.

(** C4, the counterexample.  From (1, 0) with heading 0 back to (2^-60, 0)
    and back to (0, 0): the second displacement points further backward
    (its exact projection is -1, below -(1 - 2^-60)), yet the difference
    [2^-60 - 1] rounds to -1 and both calls return the component 1: the
    component is not strictly larger. *)
Lemma drive_direction_not_strictly_increasing :
  (drive_dir (b64_to_R b64_one) (b64_to_R b64_zero) (b64_to_R b64_zero)
     (b64_to_R b64_zero) (b64_to_R b64_zero)
   < drive_dir (b64_to_R b64_one) (b64_to_R b64_zero) (b64_to_R b64_zero)
       (b64_to_R b64_two_pow_m60) (b64_to_R b64_zero))%R
  /\ (drive_dir (b64_to_R b64_one) (b64_to_R b64_zero) (b64_to_R b64_zero)
        (b64_to_R b64_two_pow_m60) (b64_to_R b64_zero) < 0)%R
  /\ EdgeKinematicsDiffDrive.computeError (ST := libm_at_zero)
       (b64_step_back_edge b64_two_pow_m60)
     = Ok (set_error (b64_step_back_edge b64_two_pow_m60)
             (Vec2 b64_zero b64_one))
  /\ EdgeKinematicsDiffDrive.computeError (ST := libm_at_zero)
       (b64_step_back_edge b64_zero)
     = Ok (set_error (b64_step_back_edge b64_zero) (Vec2 b64_zero b64_one))
  /\ SFltb b64_one b64_one = false.
Proof.
  assert (Hsmall : (0 < / IZR 1152921504606846976 < 1)%R).
  { split; [apply Rinv_0_lt_compat; lra |].
    rewrite <- Rinv_1. apply Rinv_lt_contravar; lra. }
  unfold drive_dir.
  rewrite b64_to_R_one, b64_to_R_two_pow_m60.
  change (b64_to_R b64_zero) with 0%R. rewrite cos_0, sin_0.
  split; [lra |]. split; [lra |].
  repeat split; vm_compute; reflexivity.
Qed.


